(** * Safe port checker (server.js): host authorisation, port probe,
      bounded scheduler and the two HTTP handlers.

    The development follows the layout of [src/server.js]:
    - [Js]     the JavaScript values and built-ins the handlers rely on;
    - [World]  what the program takes from its runtime (ipaddr.js, the
               resolver, the sockets, the ALLOWLIST configuration);
    - [cidrContains], [hostAllowedAsync]   lines 35-81;
    - [checkTcpPort]                        lines 83-107;
    - [Sched]  [mapWithConcurrency]         lines 109-124, as a machine
               over the microtask queue, and its input/output summary;
    - [tcp_check], [tcp_scan_range]         lines 126-167. *)

From Stdlib Require Import QArith Qround ZArith String Ascii List Bool Lia
  DecimalString.
From stdpp Require Import base list gmap.
Import ListNotations.
Local Open Scope string_scope.
Local Open Scope list_scope.
Local Open Scope Z_scope.

(** ** JavaScript numbers and values *)

(** A JavaScript number.  Finite values are carried as rationals: every
    finite double is one, and the handlers only compare numbers and take
    minima and maxima, which is exact on doubles.  Both zeroes are
    [Fin 0]. *)
Inductive JsNum : Type :=
| NaN
| NegInf
| PosInf
| Fin (q : Q).

(** The JSON values a request body field can hold, and [undefined] for an
    absent field.  An array or object is kept as its [toString] rendering,
    which is all [Number(...)] looks at. *)
Inductive JsVal : Type :=
| VUndef
| VNull
| VBool (b : bool)
| VNum (n : JsNum)
| VStr (s : string)
| VObj (rendering : string).

Module Js.

Definition of_Z (z : Z) : JsNum := Fin (inject_Z z).

(** ToBoolean on numbers: [0] and [NaN] are falsy. *)
Definition truthy_num (n : JsNum) : bool :=
  match n with
  | NaN => false
  | Fin q => negb (Qeq_bool q 0)
  | NegInf | PosInf => true
  end.

Definition nonempty (s : string) : bool :=
  match s with EmptyString => false | String _ _ => true end.

(** ToBoolean. *)
Definition truthy (v : JsVal) : bool :=
  match v with
  | VUndef | VNull => false
  | VBool b => b
  | VNum n => truthy_num n
  | VStr s => nonempty s
  | VObj _ => true
  end.

(** [a < b] on numbers; any comparison with [NaN] is false. *)
Definition lt (a b : JsNum) : bool :=
  match a, b with
  | NaN, _ | _, NaN => false
  | Fin x, Fin y => negb (Qle_bool y x)
  | NegInf, NegInf => false
  | NegInf, _ => true
  | _, PosInf => match a with PosInf => false | _ => true end
  | _, _ => false
  end.

Definition gt (a b : JsNum) : bool := lt b a.

(** [a >= b]. *)
Definition ge (a b : JsNum) : bool :=
  match a, b with
  | NaN, _ | _, NaN => false
  | Fin x, Fin y => Qle_bool y x
  | _, NegInf => true
  | PosInf, _ => true
  | _, _ => false
  end.

(** [Math.min] and [Math.max] of two numbers. *)
Definition min (a b : JsNum) : JsNum :=
  match a, b with
  | NaN, _ | _, NaN => NaN
  | _, _ => if lt b a then b else a
  end.

Definition max (a b : JsNum) : JsNum :=
  match a, b with
  | NaN, _ | _, NaN => NaN
  | _, _ => if lt a b then b else a
  end.

(** A rational that is a whole number. *)
Definition whole (q : Q) : bool :=
  Z.eqb (Qnum q mod Zpos (Qden q)) 0.

(** [Number.isInteger(v)]: [v] has type number and is a finite whole
    number. *)
Definition isInteger (v : JsVal) : bool :=
  match v with
  | VNum (Fin q) => whole q
  | _ => false
  end.

(** The integer held by a value that passed [Number.isInteger]. *)
Definition int_of (v : JsVal) : Z :=
  match v with
  | VNum (Fin q) => Qnum q / Zpos (Qden q)
  | _ => 0
  end.

(** *** Strings.  A string is a sequence of code units below 256. *)

Definition is_digit (c : ascii) : bool :=
  let n := nat_of_ascii c in (48 <=? n)%nat && (n <=? 57)%nat.

Fixpoint all_digits (s : string) : bool :=
  match s with
  | EmptyString => true
  | String c r => is_digit c && all_digits r
  end.

(** [s.replace(/:\d+$/, "")]: the match starts at the first colon that
    is followed by one or more digits and then the end of the string. *)
Fixpoint strip_port (s : string) : string :=
  match s with
  | EmptyString => EmptyString
  | String c r =>
      if Ascii.eqb c ":" && nonempty r && all_digits r
      then EmptyString
      else String c (strip_port r)
  end.

(** [s.includes(c)] for a one-character needle. *)
Fixpoint includes (c : ascii) (s : string) : bool :=
  match s with
  | EmptyString => false
  | String d r => Ascii.eqb c d || includes c r
  end.

(** [s.split(c)] for a one-character separator. *)
Fixpoint split (c : ascii) (s : string) : list string :=
  match s with
  | EmptyString => [EmptyString]
  | String d r =>
      if Ascii.eqb c d then EmptyString :: split c r
      else match split c r with
           | [] => [String d EmptyString]
           | w :: ws => String d w :: ws
           end
  end.

(** White space and line terminators among the code units below 256:
    TAB, LF, VT, FF, CR, SP and NBSP. *)
Definition is_space (c : ascii) : bool :=
  let n := nat_of_ascii c in
  ((9 <=? n)%nat && (n <=? 13)%nat) || (n =? 32)%nat || (n =? 160)%nat.

Fixpoint trim_start (s : string) : string :=
  match s with
  | EmptyString => EmptyString
  | String c r => if is_space c then trim_start r else s
  end.

Fixpoint all_space (s : string) : bool :=
  match s with
  | EmptyString => true
  | String c r => is_space c && all_space r
  end.

Fixpoint trim_end (s : string) : string :=
  match s with
  | EmptyString => EmptyString
  | String c r => if all_space s then EmptyString else String c (trim_end r)
  end.

(** [s.trim()] *)
Definition trim (s : string) : string := trim_end (trim_start s).

End Js.

(** ** Configuration (lines 19-23) *)

Definition MAX_PORT_RANGE : Z := 200.
Definition MAX_CONCURRENCY : Z := 50.
Definition DEFAULT_TIMEOUT_MS : Z := 2000.

Definition DEFAULT_ALLOWLIST_TEXT : string :=
  "127.0.0.1,localhost,10.0.0.0/8,172.16.0.0/12,192.168.0.0/16".

(** [text.split(",").map(s => s.trim()).filter(Boolean)] *)
Definition parse_allowlist (text : string) : list string :=
  List.filter Js.nonempty (List.map Js.trim (Js.split "," text)).

Definition DEFAULT_ALLOWLIST : list string :=
  Eval vm_compute in parse_allowlist DEFAULT_ALLOWLIST_TEXT.

(** ** The runtime

    Everything the program calls but does not define: the ipaddr.js
    library, two JavaScript built-ins whose result depends on the full
    number grammar, the resolver, the sockets (their events, and the
    exceptions their methods throw on bad arguments) and the ALLOWLIST
    read from the process environment at start-up. *)

(** The argument of a socket's ["error"] event: whether the value is
    truthy, its [code] property and its [String(err)] rendering. *)
Record SocketError : Type := {
  err_truthy : bool;
  err_code : JsVal;
  err_string : string
}.

(** The events a socket emits after [socket.connect]. *)
Inductive SocketEvent : Type :=
| Connect
| Timeout
| Error (err : SocketError).

Record World : Type := {
  (** an address parsed by ipaddr.js *)
  Addr : Type;
  (** [ipaddr.isValid(s)] *)
  ipaddr_isValid : string -> bool;
  (** [ipaddr.parse(s)]; [None] when it throws *)
  ipaddr_parse : string -> option Addr;
  (** [ip.match(net, len)]; [None] when it throws *)
  ipaddr_match : Addr -> Addr -> JsNum -> option bool;
  (** [parseInt(s, 10)] *)
  parseInt10 : string -> JsNum;
  (** [Number(s)] on a string *)
  StringToNumber : string -> JsNum;
  (** [dns.lookup(name, { all: true })] mapped to the [address] fields;
      [None] when the promise rejects *)
  dns_lookup : string -> option (list string);
  (** the events emitted by the socket connected to [port], [host] with
      the given timeout, in order *)
  socket_events : JsVal -> JsNum -> JsNum -> list SocketEvent;
  (** [socket.setTimeout(timeoutMs)] on line 95: [Some] with the
      rendering [String(e)] of the exception when the call throws *)
  socket_setTimeout : JsNum -> option string;
  (** [socket.connect(port, host)] on line 105, likewise *)
  socket_connect : JsNum -> JsVal -> option string;
  (** the rules, in order *)
  ALLOWLIST : list string
}.

(** How an [async] function or a [try] block ends. *)
Inductive Completion (A : Type) : Type :=
| Returned (a : A)
| Threw.
Arguments Returned {A} a.
Arguments Threw {A}.

(** The network operations a handler performs, in order. *)
Inductive Event : Type :=
| EvDns (name : string)
| EvProbe (host : JsVal) (port : JsNum) (timeoutMs : JsNum).

Definition is_probe (e : Event) : bool :=
  match e with EvProbe _ _ _ => true | EvDns _ => false end.

(** The three kinds of allowlist rule, as the loops of
    [hostAllowedAsync] tell them apart. *)
Inductive RuleKind : Type := CidrRule | ExactIpRule | HostnameRule.

Section Authorizer.

Variable W : World.

Definition rule_kind (rule : string) : RuleKind :=
  if Js.includes "/" rule then CidrRule
  else if ipaddr_isValid W rule then ExactIpRule
  else HostnameRule.

(** [Number(v)] *)
Definition ToNumber (v : JsVal) : JsNum :=
  match v with
  | VUndef => NaN
  | VNull => Js.of_Z 0
  | VBool b => Js.of_Z (if b then 1 else 0)
  | VNum n => n
  | VStr s => StringToNumber W s
  | VObj s => StringToNumber W s
  end.

(** Lines 35-46.  The body of the [try]: [None] is an exception, which
    the [catch] turns into [false]. *)
Definition cidrContains_try (cidr ipStr : string) : option bool :=
  if negb (Js.includes "/" cidr) then Some false
  else
    let parts := Js.split "/" cidr in
    let netStr := nth 0 parts EmptyString in
    let lenStr := nth 1 parts EmptyString in
    let len := parseInt10 W lenStr in
    match ipaddr_parse W ipStr with
    | None => None
    | Some ip =>
        match ipaddr_parse W netStr with
        | None => None
        | Some net => ipaddr_match W ip net len
        end
    end.

Definition cidrContains (cidr ipStr : string) : bool :=
  match cidrContains_try cidr ipStr with
  | Some b => b
  | None => false
  end.

(** Lines 52-61: the loop over the rules for an IP literal. *)
Fixpoint literal_loop (trimmed : string) (rules : list string) : bool :=
  match rules with
  | [] => false
  | rule :: rest =>
      if Js.includes "/" rule then
        if cidrContains rule trimmed then true
        else literal_loop trimmed rest
      else if ipaddr_isValid W rule then
        if String.eqb trimmed rule then true
        else literal_loop trimmed rest
      else if String.eqb trimmed rule then true
      else literal_loop trimmed rest
  end.

(** Lines 67-75: the inner loop, for one resolved address. *)
Fixpoint resolved_rule_loop (trimmed addr : string) (rules : list string)
  : bool :=
  match rules with
  | [] => false
  | rule :: rest =>
      if Js.includes "/" rule then
        if cidrContains rule addr then true
        else resolved_rule_loop trimmed addr rest
      else if ipaddr_isValid W rule then
        if String.eqb addr rule then true
        else resolved_rule_loop trimmed addr rest
      else if String.eqb trimmed rule then true
      else resolved_rule_loop trimmed addr rest
  end.

(** Lines 66-77: the outer loop over the resolved addresses. *)
Fixpoint resolved_loop (trimmed : string) (addresses : list string) : bool :=
  match addresses with
  | [] => false
  | addr :: rest =>
      if resolved_rule_loop trimmed addr (ALLOWLIST W) then true
      else resolved_loop trimmed rest
  end.

(** Lines 48-81.  The result is the list of look-ups performed and the
    way the promise settles.  A truthy [host] that is not a string has
    no [replace] method: the call on line 50 throws. *)
Definition hostAllowedAsync (host : JsVal) : list Event * Completion bool :=
  if negb (Js.truthy host) then ([], Returned false)
  else
    match host with
    | VStr h =>
        let trimmed := Js.strip_port h in
        if ipaddr_isValid W trimmed then
          ([], Returned (literal_loop trimmed (ALLOWLIST W)))
        else
          match dns_lookup W trimmed with
          | Some addresses =>
              ([EvDns trimmed], Returned (resolved_loop trimmed addresses))
          | None => ([EvDns trimmed], Returned false)
          end
    | _ => ([], Threw)
    end.

End Authorizer.

(** ** The port probe (lines 83-107) *)

Inductive Status : Type := open | timeout | closed | error.

(** The object the probe resolves with: [{ host, port, status }] and,
    after an ["error"] event, [error]. *)
Record ProbeResult : Type := {
  pr_host : JsVal;
  pr_port : JsNum;
  pr_status : Status;
  pr_error : option JsVal
}.

(** The closure state of one call: the flag [resolved], how often
    [socket.destroy()] ran, and what the promise was resolved with. *)
Record Probe : Type := {
  resolved : bool;
  destroyed : nat;
  promise : option ProbeResult
}.

Definition probe_start : Probe :=
  {| resolved := false; destroyed := 0%nat; promise := None |}.

(** Lines 88-93. *)
Definition onDone (host : JsVal) (port : JsNum)
    (result : Status * option JsVal) (st : Probe) : Probe :=
  if resolved st then st
  else {| resolved := true;
          destroyed := S (destroyed st);
          promise := Some {| pr_host := host; pr_port := port;
                             pr_status := fst result;
                             pr_error := snd result |} |}.

(** [err && err.code === "ECONNREFUSED"] *)
Definition refused (err : SocketError) : bool :=
  err_truthy err &&
  match err_code err with
  | VStr c => String.eqb c "ECONNREFUSED"
  | _ => false
  end.

(** [(err && err.code) || String(err)] *)
Definition error_detail (err : SocketError) : JsVal :=
  if err_truthy err && Js.truthy (err_code err) then err_code err
  else VStr (err_string err).

(** Lines 96-104: the three listeners. *)
Definition on_event (host : JsVal) (port : JsNum) (st : Probe)
    (ev : SocketEvent) : Probe :=
  match ev with
  | Connect => onDone host port (open, None) st
  | Timeout => onDone host port (timeout, None) st
  | Error err =>
      if refused err then onDone host port (closed, Some (err_code err)) st
      else onDone host port (error, Some (error_detail err)) st
  end.

(** The probe after the socket has emitted [evs]. *)
Definition probe_run (host : JsVal) (port : JsNum) (evs : list SocketEvent)
  : Probe :=
  fold_left (on_event host port) evs probe_start.

(** The promise [checkTcpPort] returns.  The executor of line 84 has no
    [try]: when a call in it throws, the promise is rejected at once,
    with that exception.  Otherwise the promise is left to the
    listeners. *)
Inductive ProbePromise : Type :=
| Rejects (e : string)
| Listens (p : Probe).

(** Lines 83-107: [checkTcpPort(host, port, timeoutMs)], with the
    listeners run on all the events of its socket. *)
Definition checkTcpPort (W : World) (host : JsVal) (port timeoutMs : JsNum)
  : ProbePromise :=
  match socket_setTimeout W timeoutMs with
  | Some e => Rejects e
  | None =>
      match socket_connect W port host with
      | Some e => Rejects e
      | None =>
          Listens (probe_run host port (socket_events W host port timeoutMs))
      end
  end.

(** ** The bounded scheduler (lines 109-124) *)

Module Sched.

(** How a promise settles.  A rejection or an exception [e] is kept as
    the string [String(e)] that line 114 stores; the conversion is
    taken to return, as it does for every error and primitive. *)
Inductive Settled (A : Type) : Type :=
| Fulfilled (a : A)
| Rejected (e : string).
Arguments Fulfilled {A} a.
Arguments Rejected {A} e.

(** What [fn(item)] does: throw, return a value that is not a promise
    or a promise that is already settled, or return a pending promise
    that settles later ([Some]) or never ([None]). *)
Inductive Behaviour (A : Type) : Type :=
| Throws (e : string)
| Immediate (s : Settled A)
| Deferred (fate : option (Settled A)).
Arguments Throws {A} e.
Arguments Immediate {A} s.
Arguments Deferred {A} fate.

(** An element of the array the scheduler resolves with: the worker's
    value, or [{ error: String(e) }]. *)
Inductive Item (A : Type) : Type :=
| Value (a : A)
| ErrorObj (error : string).
Arguments Value {A} a.
Arguments ErrorObj {A} error.

(** Line 114: [try { return await ... } catch (e) { return { error:
    String(e) } }]. *)
Definition wrap {A} (s : Settled A) : Item A :=
  match s with
  | Fulfilled a => Value a
  | Rejected e => ErrorObj e
  end.

(** What the promise [p] of lines 113-115 is fulfilled with, if ever. *)
Definition settles {A} (b : Behaviour A) : option (Item A) :=
  match b with
  | Throws e => Some (ErrorObj e)
  | Immediate s => Some (wrap s)
  | Deferred fate => wrap <$> fate
  end.

(** The value of [await mapWithConcurrency(items, fn, concurrency)]:
    [Promise.all] of the promises [p], in the order they were pushed.
    [None] when some worker never settles.  [correct] below relates it
    to the machine. *)
Definition mapWithConcurrency_value {T A} (items : list T)
    (fn : T -> Behaviour A) : option (list (Item A)) :=
  mapM (fun item => settles (fn item)) items.

(** *** The machine

    The call runs on one thread: the loop runs from one [await] to the
    next without interruption, reactions of settled promises run one
    at a time from the microtask queue, in the order they were queued,
    and between any two of them a pending worker may settle.  A state
    of the machine is a point between two such runs; within a run of
    the loop workers are only started, so the number in flight is
    largest at its end.

    Promises [p] are numbered in creation order, so [results] is
    [[0; ...; next - 1]].  The reactions of [p] are, in the order they
    were registered, the [finally] callback of line 118 and then one
    per [Promise.race] that found [p] in [executing].

    The queue holds the jobs that read or write this state.  The
    other jobs the code queues (the reactions of [Promise.all], of
    the promise [p.finally] returns, of the promises [then] derives)
    leave it unchanged and are left out: the steps of the machine are
    not a count of microtasks. *)

(** A job of the microtask queue. *)
Inductive Job (A : Type) : Type :=
| JCont (i : nat) (s : Settled A)
    (** the [await] of line 114 in [p i] resumes with [s] *)
| JFinally (i : nat)
    (** the [finally] callback of [p i]: [executing.delete(p)] *)
| JRace (k i : nat)
    (** [p i] settles the promise of the [k]-th [Promise.race] *)
| JResume
    (** the [await] of line 120 resumes the [for] loop *).
Arguments JCont {A} i s.
Arguments JFinally {A} i.
Arguments JRace {A} k i.
Arguments JResume {A}.

Record State (T A : Type) : Type := {
  todo : list T;                (** items the loop has not reached *)
  next : nat;                   (** [results.length] *)
  executing : list nat;         (** the Set, in insertion order *)
  value : gmap nat (Item A);    (** the settled [p]s and their values *)
  inflight : gmap nat (option (Settled A));
                                (** pending workers and their fate *)
  racing : list (nat * nat);    (** reactions [(i, k)] that race [k]
                                    registered on the pending [p i] *)
  queue : list (Job A);         (** the microtask queue *)
  races : nat;                  (** calls of [Promise.race] so far *)
  awaiting : option nat;        (** the race the loop is suspended on *)
  returned : bool               (** line 123 was reached *)
}.
Arguments todo {T A} _.
Arguments next {T A} _.
Arguments executing {T A} _.
Arguments value {T A} _.
Arguments inflight {T A} _.
Arguments racing {T A} _.
Arguments queue {T A} _.
Arguments races {T A} _.
Arguments awaiting {T A} _.
Arguments returned {T A} _.

Section Machine.

Context {T A : Type}.
Variable fn : T -> Behaviour A.
Variable concurrency : JsNum.

Abbreviation St := (State T A).

Definition empty : St :=
  {| todo := []; next := 0%nat; executing := []; value := ∅;
     inflight := ∅; racing := []; queue := []; races := 0%nat;
     awaiting := None; returned := false |}.

Definition enqueue (js : list (Job A)) (st : St) : St :=
  {| todo := todo st; next := next st; executing := executing st;
     value := value st; inflight := inflight st; racing := racing st;
     queue := queue st ++ js; races := races st;
     awaiting := awaiting st; returned := returned st |}.

(** Lines 113-115: create [p] for [item].  The call [fn(item)] runs
    at once; [p] is fulfilled at once only when it throws. *)
Definition create (item : T) (st : St) : St :=
  let i := next st in
  match fn item with
  | Throws e =>
      {| todo := todo st; next := next st; executing := executing st;
         value := <[i := ErrorObj e]> (value st);
         inflight := inflight st; racing := racing st;
         queue := queue st; races := races st;
         awaiting := awaiting st; returned := returned st |}
  | Immediate s => enqueue [JCont i s] st
  | Deferred fate =>
      {| todo := todo st; next := next st; executing := executing st;
         value := value st;
         inflight := <[i := fate]> (inflight st); racing := racing st;
         queue := queue st; races := races st;
         awaiting := awaiting st; returned := returned st |}
  end.

(** Lines 116-118: [results.push(p); executing.add(p);
    p.finally(...)].  On a settled [p] the callback is queued at
    once; on a pending one it is the first reaction of [p]. *)
Definition register (st : St) : St :=
  let i := next st in
  let st' :=
    {| todo := todo st; next := S i; executing := executing st ++ [i];
       value := value st; inflight := inflight st; racing := racing st;
       queue := queue st; races := races st;
       awaiting := awaiting st; returned := returned st |} in
  match value st !! i with
  | Some _ => enqueue [JFinally i] st'
  | None => st'
  end.

(** [Promise.race] subscribes to one member of [executing]. *)
Definition subscribe (k : nat) (st : St) (j : nat) : St :=
  match value st !! j with
  | Some _ => enqueue [JRace k j] st
  | None =>
      {| todo := todo st; next := next st; executing := executing st;
         value := value st; inflight := inflight st;
         racing := racing st ++ [(j, k)];
         queue := queue st; races := races st;
         awaiting := awaiting st; returned := returned st |}
  end.

(** Line 120: [await Promise.race(executing)] with [rest] still to
    do. *)
Definition race (rest : list T) (st : St) : St :=
  let k := races st in
  let st' := fold_left (subscribe k) (executing st) st in
  {| todo := rest; next := next st'; executing := executing st';
     value := value st'; inflight := inflight st'; racing := racing st';
     queue := queue st'; races := S k;
     awaiting := Some k; returned := returned st' |}.

(** [executing.size >= concurrency] *)
Definition full (st : St) : bool :=
  Js.ge (Js.of_Z (Z.of_nat (length (executing st)))) concurrency.

(** Lines 112-123: the loop from its head, up to the next [await]
    or the [return]. *)
Fixpoint loop (items : list T) (st : St) : St :=
  match items with
  | [] =>
      {| todo := []; next := next st; executing := executing st;
         value := value st; inflight := inflight st; racing := racing st;
         queue := queue st; races := races st;
         awaiting := awaiting st; returned := true |}
  | item :: rest =>
      let st' := register (create item st) in
      if full st' then race rest st' else loop rest st'
  end.

(** The call: the loop runs until its first [await]. *)
Definition mapWithConcurrency (items : list T) : St := loop items empty.

(** [p i] is fulfilled with [v]: its reactions are queued in the
    order they were registered, the [finally] callback first. *)
Definition fulfil (i : nat) (v : Item A) (st : St) : St :=
  {| todo := todo st; next := next st; executing := executing st;
     value := <[i := v]> (value st); inflight := inflight st;
     racing := filter (fun r => r.1 ≠ i) (racing st);
     queue := queue st ++ JFinally i
                :: map (fun r => JRace r.2 i)
                       (filter (fun r => r.1 = i) (racing st));
     races := races st; awaiting := awaiting st;
     returned := returned st |}.

Definition run_job (j : Job A) (st : St) : St :=
  match j with
  | JCont i s => fulfil i (wrap s) st
  | JFinally i =>
      {| todo := todo st; next := next st;
         executing := filter (fun j => j ≠ i) (executing st);
         value := value st; inflight := inflight st; racing := racing st;
         queue := queue st; races := races st;
         awaiting := awaiting st; returned := returned st |}
  | JRace k _ =>
      if decide (awaiting st = Some k) then
        {| todo := todo st; next := next st; executing := executing st;
           value := value st; inflight := inflight st;
           racing := racing st; queue := queue st ++ [JResume];
           races := races st; awaiting := None;
           returned := returned st |}
      else st
  | JResume => loop (todo st) st
  end.

Definition pop (q : list (Job A)) (st : St) : St :=
  {| todo := todo st; next := next st; executing := executing st;
     value := value st; inflight := inflight st; racing := racing st;
     queue := q; races := races st;
     awaiting := awaiting st; returned := returned st |}.

(** The worker of [p i] settles with [s]: the [await] of line 114 is
    queued. *)
Definition settle (i : nat) (s : Settled A) (st : St) : St :=
  {| todo := todo st; next := next st; executing := executing st;
     value := value st; inflight := delete i (inflight st);
     racing := racing st; queue := queue st ++ [JCont i s];
     races := races st; awaiting := awaiting st;
     returned := returned st |}.

(** One step of the machine: the first job of the queue runs, or,
    at any time, a pending worker settles. *)
Inductive step : St -> St -> Prop :=
| step_job j q st :
    queue st = j :: q -> step st (run_job j (pop q st))
| step_settle i s st :
    inflight st !! i = Some (Some s) -> step st (settle i s st).

(** The states of a call on [items]. *)
Inductive reachable (items : list T) : St -> Prop :=
| reach_call : reachable items (mapWithConcurrency items)
| reach_step st st' :
    reachable items st -> step st st' -> reachable items st'.

(** Workers that were started and whose promise is still pending. *)
Definition in_flight (st : St) : nat := size (inflight st).

(** Line 123: what [Promise.all(results)] is fulfilled with, once
    the loop has returned and every [p] is settled. *)
Definition outcome (st : St) : option (list (Item A)) :=
  if returned st then mapM (fun i => value st !! i) (seq 0 (next st))
  else None.

(** A schedule: microtasks first, otherwise some pending worker
    settles. *)
Definition first_settling (st : St) : option (nat * Settled A) :=
  head (omap (fun '(i, fate) => pair i <$> fate)
             (map_to_list (inflight st))).

Definition advance (st : St) : option St :=
  match queue st with
  | j :: q => Some (run_job j (pop q st))
  | [] =>
      match first_settling st with
      | Some (i, s) => Some (settle i s st)
      | None => None
      end
  end.

Fixpoint run (fuel : nat) (st : St) : St :=
  match fuel with
  | O => st
  | S n => match advance st with
           | Some st' => run n st'
           | None => st
           end
  end.

End Machine.

(** *** Invariants of the machine *)

Definition is_resume {A} (j : Job A) : bool :=
  match j with JResume => true | _ => false end.

(** Weights for the termination measure: a continuation still has its
    [finally] callback to queue. *)
Definition job_weight {A} (j : Job A) : nat :=
  match j with JCont _ _ => 2%nat | _ => 1%nat end.

Section Invariants.

Context {T A : Type}.
Variable fn : T -> Behaviour A.
Variable items : list T.

Abbreviation St := (State T A).

(** The loop is inside its synchronous part. *)
Definition running (st : St) : Prop :=
  awaiting st = None ∧ returned st = false ∧ JResume ∉ queue st.

(** The loop is suspended, about to resume, or has returned. *)
Record parked (st : St) : Prop := {
  parked_returned :
    returned st = true →
    todo st = [] ∧ awaiting st = None ∧ JResume ∉ queue st;
  parked_resume :
    returned st = false → awaiting st = None → JResume ∈ queue st;
  parked_single :
    match awaiting st with
    | Some _ => List.filter is_resume (queue st) = []
    | None => (length (List.filter is_resume (queue st)) ≤ 1)%nat
    end
}.

(** Every value in the machine is the one [fn] gives for the item
    at that index; [rest] is what the loop has not reached. *)
Record sound (rest : list T) (st : St) : Prop := {
  sound_rest : rest = drop (next st) items;
  sound_next : (next st ≤ length items)%nat;
  sound_size : (length (executing st) ≤ next st)%nat;
  sound_value : ∀ i v,
    value st !! i = Some v →
    (i < next st)%nat ∧
    ∃ x, items !! i = Some x ∧ settles (fn x) = Some v;
  sound_inflight : ∀ i fate,
    inflight st !! i = Some fate →
    (i < next st)%nat ∧
    ∃ x, items !! i = Some x ∧ fn x = Deferred fate;
  sound_queue : ∀ i s,
    JCont i s ∈ queue st →
    (i < next st)%nat ∧
    ∃ x, items !! i = Some x ∧ settles (fn x) = Some (wrap s)
}.

(** Nothing is lost: a pending [p] has a worker in flight or its
    continuation queued, and an awaited race has a member that can
    still settle it. *)
Record live (st : St) : Prop := {
  live_pending : ∀ i,
    (i < next st)%nat → value st !! i = None →
    is_Some (inflight st !! i) ∨ ∃ s, JCont i s ∈ queue st;
  live_race : ∀ k,
    awaiting st = Some k →
    ∃ i, JRace k i ∈ queue st ∨
         ((i < next st)%nat ∧ value st !! i = None ∧ (i, k) ∈ racing st)
}.

(** The part that bounds [executing] by [cap]. *)
Record bounded (cap : nat) (st : St) : Prop := {
  bd_nodup : NoDup (executing st);
  bd_fresh : ∀ i, i ∈ executing st → (i < next st)%nat;
  bd_cap : (length (executing st) ≤ cap)%nat;
  bd_resume :
    JResume ∈ queue st → (length (executing st) < cap)%nat;
  bd_finally : ∀ i,
    i ∈ executing st → is_Some (value st !! i) →
    JFinally i ∈ queue st;
  bd_races : ∀ k i,
    JRace k i ∈ queue st ∨ (i, k) ∈ racing st → (k < races st)%nat;
  bd_awaiting : ∀ k, awaiting st = Some k → (k < races st)%nat;
  bd_members : ∀ k,
    awaiting st = Some k →
    ∃ R : list nat,
      (length R ≤ cap)%nat ∧ executing st ⊆ R ∧
      ∀ i, JRace k i ∈ queue st ∨ (i, k) ∈ racing st → i ∈ R;
  bd_order : ∀ k q1 i q2,
    awaiting st = Some k → queue st = q1 ++ JRace k i :: q2 →
    JFinally i ∈ q1 ∨ i ∉ executing st;
  bd_inflight : ∀ i, is_Some (inflight st !! i) → i ∈ executing st;
  bd_queued : ∀ i,
    JFinally i ∈ queue st ∨ (∃ s, JCont i s ∈ queue st) →
    inflight st !! i = None ∧ (i < next st)%nat
}.

(** The termination measure. *)
Definition measure (rest : list T) (st : St) : nat :=
  (sum_list_with job_weight (queue st) + 3 * size (inflight st)
   + length (racing st)
   + match awaiting st with Some _ => 2 | None => 0 end
   + (length items + 6) * length rest)%nat.

End Invariants.

(** [cap] workers fill the scheduler: with [cap] or more promises in
    [executing] the test of line 119 succeeds. *)
Definition fills (concurrency : JsNum) (cap : nat) : Prop :=
  ∀ n : nat, (cap ≤ n)%nat →
    Js.ge (Js.of_Z (Z.of_nat n)) concurrency = true.

End Sched.

(** ** The HTTP handlers (lines 126-167)

    The handlers as they run once [requireApiKey] has let the request
    through.  A handler returns the network operations it started, in
    order, and the way it ends. *)

(** A JSON response body. *)
Inductive Body : Type :=
| BError (error : string)
    (** [{ ok: false, error }] *)
| BCheck (result : ProbeResult)
    (** [{ ok: true, result }] *)
| BScan (host : JsVal) (scanned_count : nat)
        (results : list (Sched.Item ProbeResult))
    (** [{ ok: true, host, scanned_count, results }] *).

(** How a handler ends: a response is sent, its promise rejects (nothing
    in the file catches it), or it waits for ever. *)
Inductive Outcome : Type :=
| Sent (status : Z) (body : Body)
| Unhandled
| Pending.

(** [req.query] of [GET /tcp/check]: each parameter is absent or a
    string. *)
Record CheckQuery : Type := {
  q_host : option string;
  q_port : option string;
  q_timeout : option string
}.

(** [req.body || {}] of [POST /tcp/scan-range]. *)
Record ScanBody : Type := {
  b_host : JsVal;
  b_start : JsVal;
  b_end : JsVal;
  b_timeout : JsVal;
  b_concurrency : JsVal
}.

Definition show_Z (z : Z) : string :=
  DecimalString.NilZero.string_of_int (Z.to_int z).

(** Line 162: [for (let p = min; p <= max; p++) ports.push(p)], with
    [n] the number of iterations left. *)
Fixpoint ports_loop (n : nat) (p : Z) : list Z :=
  match n with
  | O => []
  | S n' => p :: ports_loop n' (p + 1)
  end.

Definition ports_between (min max : Z) : list Z :=
  ports_loop (Z.to_nat (max - min + 1)) min.

Section Handlers.

Variable W : World.

(** [v || d] on a query parameter. *)
Definition param_or (v : option string) (d : string) : string :=
  match v with
  | Some s => if Js.nonempty s then s else d
  | None => d
  end.

(** Line 127 *)
Definition check_host (q : CheckQuery) : string :=
  Js.trim (param_or (q_host q) "").

(** Line 128: [Number(req.query.port || 0)] *)
Definition check_port (q : CheckQuery) : JsNum :=
  match q_port q with
  | Some s => if Js.nonempty s then StringToNumber W s else Js.of_Z 0
  | None => Js.of_Z 0
  end.

(** [n || DEFAULT_TIMEOUT_MS] *)
Definition timeout_or_default (n : JsNum) : JsNum :=
  if Js.truthy_num n then n else Js.of_Z DEFAULT_TIMEOUT_MS.

(** Line 129 *)
Definition check_timeout (q : CheckQuery) : JsNum :=
  timeout_or_default
    (match q_timeout q with
     | Some s => StringToNumber W s
     | None => NaN
     end).

(** Lines 126-138. *)
Definition tcp_check (q : CheckQuery) : list Event * Outcome :=
  let host := check_host q in
  let port := check_port q in
  let timeoutMs := check_timeout q in
  if negb (Js.nonempty host) || negb (Js.truthy_num port) then
    ([], Sent 400 (BError "missing host or port"))
  else
    match hostAllowedAsync W (VStr host) with
    | (tr, Threw) => (tr, Unhandled)
    | (tr, Returned allowed) =>
        if negb allowed then
          (tr, Sent 403 (BError "host not allowed by server policy"))
        else if Js.lt port (Js.of_Z 1) || Js.gt port (Js.of_Z 65535) then
          (tr, Sent 400 (BError "port out of range"))
        else
          let tr' := tr ++ [EvProbe (VStr host) port timeoutMs] in
          match checkTcpPort W (VStr host) port timeoutMs with
          | Rejects _ => (tr', Unhandled)
          | Listens p =>
              match promise p with
              | Some result => (tr', Sent 200 (BCheck result))
              | None => (tr', Pending)
              end
          end
    end.

(** Line 164: the worker [(port) => checkTcpPort(host, port,
    timeoutMs)].  It returns a promise that is already rejected when
    the executor threw, and a pending one otherwise. *)
Definition probe_worker (host : JsVal) (timeoutMs : JsNum) (port : Z)
  : Sched.Behaviour ProbeResult :=
  match checkTcpPort W host (Js.of_Z port) timeoutMs with
  | Rejects e => Sched.Immediate (Sched.Rejected e)
  | Listens p => Sched.Deferred (Sched.Fulfilled <$> promise p)
  end.

(** Line 143 *)
Definition scan_concurrency (b : ScanBody) : JsNum :=
  let c := ToNumber W (b_concurrency b) in
  if Js.truthy_num c then c
  else Js.min (Js.of_Z MAX_CONCURRENCY) (Js.of_Z 20).

(** The normalised range of lines 152-155. *)
Definition clamp_port (v : Z) : Z := Z.max 1 (Z.min 65535 v).

Definition scan_min (b : ScanBody) : Z :=
  Z.min (clamp_port (Js.int_of (b_start b)))
        (clamp_port (Js.int_of (b_end b))).

Definition scan_max (b : ScanBody) : Z :=
  Z.max (clamp_port (Js.int_of (b_start b)))
        (clamp_port (Js.int_of (b_end b))).

(** Line 160 *)
Definition scan_limit (b : ScanBody) : JsNum :=
  Js.max (Js.of_Z 1) (Js.min (Js.of_Z MAX_CONCURRENCY) (scan_concurrency b)).

(** Lines 161-162 *)
Definition scan_ports (b : ScanBody) : list Z :=
  ports_between (scan_min b) (scan_max b).

(** Line 142 *)
Definition scan_timeout (b : ScanBody) : JsNum :=
  timeout_or_default (ToNumber W (b_timeout b)).

(** Line 164, the call: the scheduler right after its synchronous
    part. *)
Definition scan_call (b : ScanBody) : Sched.State Z ProbeResult :=
  Sched.mapWithConcurrency
    (probe_worker (b_host b) (scan_timeout b)) (scan_limit b)
    (scan_ports b).

(** Lines 140-167.  The [await] of line 164 is taken through
    [Sched.mapWithConcurrency_value].  When some probe never settles
    the handler waits for ever; the operations listed are then those
    of all ports, of which the scheduler may not have started the
    last ones. *)
Definition tcp_scan_range (b : ScanBody) : list Event * Outcome :=
  let host := b_host b in
  let timeoutMs := scan_timeout b in
  if negb (Js.truthy host) || negb (Js.isInteger (b_start b))
     || negb (Js.isInteger (b_end b)) then
    ([], Sent 400
           (BError "body must include host, start, end (integers)"))
  else
    match hostAllowedAsync W host with
    | (tr, Threw) => (tr, Unhandled)
    | (tr, Returned allowed) =>
        if negb allowed then
          (tr, Sent 403 (BError "host not allowed by server policy"))
        else
          let min := scan_min b in
          let max := scan_max b in
          let count := max - min + 1 in
          if MAX_PORT_RANGE <? count then
            (tr, Sent 400
                   (BError ("range too large (" ++ show_Z count
                            ++ " ports); max allowed "
                            ++ show_Z MAX_PORT_RANGE)%string))
          else
            let ports := scan_ports b in
            let tr' :=
              tr ++ map (fun p => EvProbe host (Js.of_Z p) timeoutMs)
                        ports in
            match Sched.mapWithConcurrency_value ports
                    (probe_worker host timeoutMs) with
            | Some results =>
                (tr', Sent 200 (BScan host (length results) results))
            | None => (tr', Pending)
            end
    end.

End Handlers.

(** ** A concrete runtime

    Used to run the handlers on examples.  Its ipaddr.js knows
    dotted-decimal IPv4 only, its number parsers plain decimal numerals
    only; on those strings they agree with the library and with
    JavaScript.  The resolver knows two names; a socket throws on the
    arguments Node's sockets throw on, and otherwise connects. *)

Module Lab.

Fixpoint digits_value (acc : Z) (s : string) : Z :=
  match s with
  | EmptyString => acc
  | String c r => digits_value (10 * acc + Z.of_nat (nat_of_ascii c) - 48) r
  end.

(** One decimal octet, without a leading zero. *)
Definition octet (s : string) : option Z :=
  match s with
  | EmptyString => None
  | String c r =>
      if Js.all_digits s && (negb (Ascii.eqb c "0") || negb (Js.nonempty r))
         && (digits_value 0 s <=? 255)
      then Some (digits_value 0 s)
      else None
  end.

Definition parse (s : string) : option (list Z) :=
  match Js.split "." s with
  | [a; b; c; d] =>
      match octet a, octet b, octet c, octet d with
      | Some a, Some b, Some c, Some d => Some [a; b; c; d]
      | _, _, _, _ => None
      end
  | _ => None
  end.

Definition isValid (s : string) : bool :=
  match parse s with Some _ => true | None => false end.

(** The octet-wise prefix comparison of ipaddr.js. *)
Fixpoint matchCIDR (fuel : nat) (first second : list Z) (bits : Z) : bool :=
  match fuel with
  | O => true
  | S f =>
      if bits <=? 0 then true
      else
        match first, second with
        | a :: r1, b :: r2 =>
            let shift := Z.max 0 (8 - bits) in
            if Z.shiftr a shift =? Z.shiftr b shift
            then matchCIDR f r1 r2 (bits - 8)
            else false
        | _, _ => true
        end
  end.

Definition matches (ip net : list Z) (len : JsNum) : option bool :=
  match len with
  | Fin q => Some (matchCIDR 5 ip net (Qnum q / Zpos (Qden q)))
  | NaN | NegInf => Some true
  | PosInf => Some (matchCIDR 5 ip net 32)
  end.

Fixpoint leading_digits (s : string) : string :=
  match s with
  | EmptyString => EmptyString
  | String c r => if Js.is_digit c then String c (leading_digits r)
                  else EmptyString
  end.

Definition parse_int (s : string) : JsNum :=
  match leading_digits s with
  | EmptyString => NaN
  | d => Js.of_Z (digits_value 0 d)
  end.

(** [digits] or [digits.digits], with an optional minus sign. *)
Definition unsigned_number (s : string) : JsNum :=
  match Js.split "." s with
  | [i] =>
      if Js.nonempty i && Js.all_digits i
      then Js.of_Z (digits_value 0 i) else NaN
  | [i; f] =>
      if Js.nonempty i && Js.all_digits i && Js.nonempty f
         && Js.all_digits f
      then Fin (Qmake (digits_value 0 (i ++ f))
                      (Pos.pow 10 (Pos.of_nat (String.length f))))
      else NaN
  | _ => NaN
  end.

Definition Number (s : string) : JsNum :=
  match s with
  | EmptyString => Js.of_Z 0
  | String "-" r =>
      match unsigned_number r with
      | Fin q => Fin (Qopp q)
      | n => n
      end
  | _ => unsigned_number s
  end.

(** [socket.setTimeout] refuses a duration that is negative or not
    finite.  The rendering of an exception is cut after its code. *)
Definition setTimeout_throws (timeoutMs : JsNum) : option string :=
  match timeoutMs with
  | Fin q => if Qle_bool 0 q then None
             else Some "RangeError [ERR_OUT_OF_RANGE]"
  | _ => Some "RangeError [ERR_OUT_OF_RANGE]"
  end.

(** [socket.connect] refuses a port that is not an integer from 0 to
    65535. *)
Definition connect_throws (port : JsNum) (host : JsVal) : option string :=
  match port with
  | Fin q => if Js.whole q && Qle_bool 0 q && Qle_bool q (inject_Z 65535)
             then None
             else Some "RangeError [ERR_SOCKET_BAD_PORT]"
  | _ => Some "RangeError [ERR_SOCKET_BAD_PORT]"
  end.

Definition lookup (name : string) : option (list string) :=
  if String.eqb name "localhost" then Some ["127.0.0.1"]
  else if String.eqb name "example.com" then Some ["93.184.216.34"]
  else None.

Definition runtime (allowlist : list string) : World :=
  {| Addr := list Z;
     ipaddr_isValid := isValid;
     ipaddr_parse := parse;
     ipaddr_match := matches;
     parseInt10 := parse_int;
     StringToNumber := Number;
     dns_lookup := lookup;
     socket_events := fun _ _ _ => [Connect];
     socket_setTimeout := setTimeout_throws;
     socket_connect := connect_throws;
     ALLOWLIST := allowlist |}.

(** The default configuration of line 20. *)
Definition default : World := runtime DEFAULT_ALLOWLIST.

(** A worker for the scheduler that fails in each of the three ways:
    it throws on 2, returns a rejected promise on 4, and its promise
    rejects later on 6; on any other item it resolves later. *)
Definition flaky (x : Z) : Sched.Behaviour Z :=
  if x =? 2 then Sched.Throws "Error: two"
  else if x =? 4 then Sched.Immediate (Sched.Rejected "Error: four")
  else if x =? 6 then Sched.Deferred (Some (Sched.Rejected "Error: six"))
  else Sched.Deferred (Some (Sched.Fulfilled (10 * x))).

End Lab.

(** * Vocabulary of the statements *)

(** Whether [rule] lets through the candidate address [addr] of the host
    name [trimmed], as the three branches of the loops decide. *)
Definition rule_matches (W : World) (trimmed addr rule : string) : bool :=
  match rule_kind W rule with
  | CidrRule => cidrContains W rule addr
  | ExactIpRule => String.eqb addr rule
  | HostnameRule => String.eqb trimmed rule
  end.

(** [port < 1 || port > 65535] on line 134. *)
Definition out_of_range (port : JsNum) : bool :=
  Js.lt port (Js.of_Z 1) || Js.gt port (Js.of_Z 65535).


(** * The rest of the file *)

(** ** Start-up configuration (lines 19-20) *)

Definition DEFAULT_API_KEY : string := "replace_me_with_strong_key".

(** Line 19: [process.env.SCAN_API_KEY || "replace_me_with_strong_key"];
    an environment variable is absent or a string. *)
Definition api_key_of_env (env : option string) : string :=
  param_or env DEFAULT_API_KEY.

(** Line 20: the rules read from [process.env.ALLOWLIST], or from the
    default text. *)
Definition allowlist_of_env (env : option string) : list string :=
  parse_allowlist (param_or env DEFAULT_ALLOWLIST_TEXT).

(** The runtime [W] started with another allowlist. *)
Definition with_allowlist (W : World) (rules : list string) : World :=
  {| Addr := Addr W;
     ipaddr_isValid := ipaddr_isValid W;
     ipaddr_parse := ipaddr_parse W;
     ipaddr_match := ipaddr_match W;
     parseInt10 := parseInt10 W;
     StringToNumber := StringToNumber W;
     dns_lookup := dns_lookup W;
     socket_events := socket_events W;
     socket_setTimeout := socket_setTimeout W;
     socket_connect := socket_connect W;
     ALLOWLIST := rules |}.

(** [l.join(sep)], to write an allowlist text from its rules. *)
Fixpoint join_with (sep : string) (l : list string) : string :=
  match l with
  | [] => EmptyString
  | [x] => x
  | x :: r => (x ++ sep ++ join_with sep r)%string
  end.

(** ** The API key gate (lines 27-33) *)

(** Where a request can carry the key: [req.headers["x-api-key"]] and
    [req.query.api_key], each absent or a string.  (A query parameter
    that is an array or an object is never [===] to the key; it is
    refused like a wrong string.) *)
Record Credentials : Type := {
  header_api_key : option string;
  query_api_key : option string
}.

(** Line 28: [req.headers["x-api-key"] || req.query.api_key] *)
Definition presented_key (c : Credentials) : option string :=
  match header_api_key c with
  | Some s => if Js.nonempty s then Some s else query_api_key c
  | None => query_api_key c
  end.

(** Lines 27-33: [true] when [next()] is called, [false] when the 401
    response is sent. *)
Definition requireApiKey (API_KEY : string) (c : Credentials) : bool :=
  match presented_key c with
  | Some k => Js.nonempty k && String.eqb k API_KEY
  | None => false
  end.

(** Line 30 *)
Definition refuse_key : list Event * Outcome :=
  ([], Sent 401 (BError "Missing/invalid API key")).

(** Line 126: [app.get("/tcp/check", requireApiKey, ...)] *)
Definition get_tcp_check (W : World) (API_KEY : string) (c : Credentials)
    (q : CheckQuery) : list Event * Outcome :=
  if requireApiKey API_KEY c then tcp_check W q else refuse_key.

(** Line 140: [app.post("/tcp/scan-range", requireApiKey, ...)] *)
Definition post_tcp_scan_range (W : World) (API_KEY : string)
    (c : Credentials) (b : ScanBody) : list Event * Outcome :=
  if requireApiKey API_KEY c then tcp_scan_range W b else refuse_key.

(** ** Vocabulary for the scheduler *)

(** The smallest number of promises that fills the scheduler for the
    finite limit [q]: [q] rounded up, and at least 1. *)
Definition ceiling_cap (q : Q) : nat := Z.to_nat (Z.max 1 (Qceiling q)).

(** [n] steps of the scheduler's machine: each is the run of one job
    of the four kinds of [Sched.Job] or the settlement of one worker.
    The microtasks that are not in its queue are not counted. *)
Inductive steps {T A : Type} (fn : T -> Sched.Behaviour A)
    (concurrency : JsNum) : nat -> Sched.State T A -> Sched.State T A -> Prop :=
| steps_none st : steps fn concurrency 0 st st
| steps_more n st st' st'' :
    Sched.step fn concurrency st st' ->
    steps fn concurrency n st' st'' ->
    steps fn concurrency (S n) st st''.

(** The workers among [items] that return a pending promise. *)
Definition is_deferred {A} (b : Sched.Behaviour A) : bool :=
  match b with Sched.Deferred _ => true | _ => false end.

(** A string that does not start with white space. *)
Definition starts_clean (s : string) : Prop :=
  match s with
  | EmptyString => True
  | String c _ => Js.is_space c = false
  end.

(** A character of an allowlist text that separates or pads rules. *)
Definition is_blank (c : ascii) : bool := Js.is_space c || Ascii.eqb c ",".

Fixpoint all_blank (s : string) : bool :=
  match s with
  | EmptyString => true
  | String c r => is_blank c && all_blank r
  end.

(** * Properties *)

(** ** The authorizer *)

Section AuthorizerFacts.

Variable W : World.

Lemma literal_loop_existsb trimmed rules :
  literal_loop W trimmed rules
  = existsb (rule_matches W trimmed trimmed) rules.
Proof.
  induction rules as [|rule rest IH]; [reflexivity|].
  cbn [literal_loop existsb]. unfold rule_matches at 1, rule_kind.
  destruct (Js.includes "/" rule).
  - destruct (cidrContains W rule trimmed); [reflexivity | exact IH].
  - destruct (ipaddr_isValid W rule);
      (destruct (String.eqb trimmed rule); [reflexivity | exact IH]).
Qed.

Lemma resolved_rule_loop_existsb trimmed addr rules :
  resolved_rule_loop W trimmed addr rules
  = existsb (rule_matches W trimmed addr) rules.
Proof.
  induction rules as [|rule rest IH]; [reflexivity|].
  cbn [resolved_rule_loop existsb]. unfold rule_matches at 1, rule_kind.
  destruct (Js.includes "/" rule).
  - destruct (cidrContains W rule addr); [reflexivity | exact IH].
  - destruct (ipaddr_isValid W rule).
    + destruct (String.eqb addr rule); [reflexivity | exact IH].
    + destruct (String.eqb trimmed rule); [reflexivity | exact IH].
Qed.

Lemma resolved_loop_existsb trimmed addresses :
  resolved_loop W trimmed addresses
  = existsb (fun addr => existsb (rule_matches W trimmed addr) (ALLOWLIST W))
            addresses.
Proof.
  induction addresses as [|addr rest IH]; [reflexivity|].
  cbn [resolved_loop existsb]. rewrite resolved_rule_loop_existsb.
  destruct (existsb _ (ALLOWLIST W)); [reflexivity | exact IH].
Qed.



(** On a string the authorizer always returns, and never probes. *)
Lemma hostAllowedAsync_string h :
  exists tr allowed,
    hostAllowedAsync W (VStr h) = (tr, Returned allowed) /\
    List.filter is_probe tr = [].
Proof.
  unfold hostAllowedAsync.
  destruct (negb (Js.truthy (VStr h))); [by eexists _, _|].
  destruct (ipaddr_isValid W (Js.strip_port h)); [by eexists _, _|].
  destruct (dns_lookup W (Js.strip_port h)); by eexists _, _.
Qed.

Lemma hostAllowedAsync_no_probe host :
  List.filter is_probe (fst (hostAllowedAsync W host)) = [].
Proof.
  unfold hostAllowedAsync.
  destruct (negb (Js.truthy host)); [reflexivity|].
  destruct host; try reflexivity.
  destruct (ipaddr_isValid W (Js.strip_port s)); [reflexivity|].
  destruct (dns_lookup W (Js.strip_port s)); reflexivity.
Qed.

End AuthorizerFacts.


(** For an IP literal the third kind of rule never applies: a rule equal
    to a valid literal is itself valid, hence an exact-IP rule. *)
Lemma hostname_rule_never_equals_literal (W : World) (trimmed rule : string) :
  ipaddr_isValid W trimmed = true ->
  rule_kind W rule = HostnameRule -> trimmed <> rule.
Proof.
  intros Hvalid Hkind ->. unfold rule_kind in Hkind.
  destruct (Js.includes "/" rule); [discriminate|].
  rewrite Hvalid in Hkind. discriminate.
Qed.






(** ** The port probe *)

Lemma onDone_resolved host port result st :
  resolved st = true -> onDone host port result st = st.
Proof. intros H. unfold onDone. by rewrite H. Qed.

Lemma on_event_resolved host port st ev :
  resolved st = true -> on_event host port st ev = st.
Proof.
  intros H. destruct ev as [| |err]; cbn [on_event];
    [| |destruct (refused err)]; by apply onDone_resolved.
Qed.

(** Once the promise is resolved, later events change nothing. *)
Lemma probe_settled_stable host port evs st :
  resolved st = true -> fold_left (on_event host port) evs st = st.
Proof.
  intros H. induction evs as [|ev evs IH]; [reflexivity|].
  cbn [fold_left]. by rewrite on_event_resolved.
Qed.

(** The first event decides: the rest of the run changes nothing. *)
Lemma probe_run_first host port ev later :
  probe_run host port (ev :: later) = on_event host port probe_start ev.
Proof.
  unfold probe_run. cbn [fold_left]. apply probe_settled_stable.
  destruct ev as [| |err]; cbn [on_event];
    [| |destruct (refused err)]; reflexivity.
Qed.

Lemma refused_true err :
  refused err = true <->
  err_truthy err = true /\ err_code err = VStr "ECONNREFUSED".
Proof.
  unfold refused. rewrite andb_true_iff.
  destruct (err_code err) as [| | | |c|]; try (intuition congruence).
  rewrite String.eqb_eq. intuition congruence.
Qed.

(** What the first event makes of the probe. *)
Lemma on_first_event host port ev :
  destroyed (on_event host port probe_start ev) = 1%nat /\
  exists r,
    promise (on_event host port probe_start ev) = Some r /\
    pr_host r = host /\ pr_port r = port /\
    match ev with
    | Connect => pr_status r = open /\ pr_error r = None
    | Timeout => pr_status r = timeout /\ pr_error r = None
    | Error err =>
        (err_truthy err = true /\ err_code err = VStr "ECONNREFUSED" /\
         pr_status r = closed /\ pr_error r = Some (VStr "ECONNREFUSED")) \/
        (~ (err_truthy err = true /\ err_code err = VStr "ECONNREFUSED") /\
         pr_status r = error /\
         pr_error r = Some (if err_truthy err && Js.truthy (err_code err)
                            then err_code err
                            else VStr (err_string err)))
    end.
Proof.
  destruct ev as [| |err]; cbn [on_event].
  - split; [reflexivity|]. by eexists.
  - split; [reflexivity|]. by eexists.
  - destruct (refused err) eqn:Href.
    + apply refused_true in Href as [Ht Hc].
      split; [reflexivity|]. eexists. repeat split.
      left. cbn. rewrite Hc. by repeat split.
    + split; [reflexivity|]. eexists. repeat split.
      right. cbn. repeat split.
      intros H. apply refused_true in H. congruence.
Qed.

(** C7, as amended.  [checkTcpPort] rejects with the exception when
    [socket.setTimeout] or [socket.connect] throws.  When both return,
    whatever the socket emits first decides the result and the promise
    resolves with it: ["connect"] gives status open, ["timeout"] gives
    status timeout, an ["error"] whose code is ECONNREFUSED gives status
    closed with that code recorded, any other ["error"] gives status
    error with the error's code, or else its rendering, recorded; the
    result carries the host and port of the call, and the socket is
    destroyed exactly once.  While the socket emits nothing the promise
    stays pending and the socket is not destroyed. *)
Theorem probe_outcome (W : World) (host : JsVal) (port timeoutMs : JsNum) :
  match socket_setTimeout W timeoutMs with
  | Some e => checkTcpPort W host port timeoutMs = Rejects e
  | None =>
      match socket_connect W port host with
      | Some e => checkTcpPort W host port timeoutMs = Rejects e
      | None =>
          exists p,
            checkTcpPort W host port timeoutMs = Listens p /\
            match socket_events W host port timeoutMs with
            | [] => promise p = None /\ destroyed p = 0%nat
            | ev :: _ =>
                destroyed p = 1%nat /\
                exists r,
                  promise p = Some r /\
                  pr_host r = host /\ pr_port r = port /\
                  match ev with
                  | Connect => pr_status r = open /\ pr_error r = None
                  | Timeout => pr_status r = timeout /\ pr_error r = None
                  | Error err =>
                      (err_truthy err = true /\
                       err_code err = VStr "ECONNREFUSED" /\
                       pr_status r = closed /\
                       pr_error r = Some (VStr "ECONNREFUSED")) \/
                      (~ (err_truthy err = true /\
                          err_code err = VStr "ECONNREFUSED") /\
                       pr_status r = error /\
                       pr_error r
                       = Some (if err_truthy err && Js.truthy (err_code err)
                               then err_code err
                               else VStr (err_string err)))
                  end
            end
      end
  end.
Proof.
  unfold checkTcpPort.
  destruct (socket_setTimeout W timeoutMs) as [e|]; [reflexivity|].
  destruct (socket_connect W port host) as [e|]; [reflexivity|].
  eexists. split; [reflexivity|].
  destruct (socket_events W host port timeoutMs) as [|ev later];
    [by split|].
  rewrite probe_run_first. apply on_first_event.
Qed.

(** C7 fails as stated: the probe does not resolve in every case.  With
    the timeout -1 [socket.setTimeout] throws, with the port 1.5
    [socket.connect] throws, and [checkTcpPort] rejects; the single-port
    check, which has no [catch], then ends with that exception. *)
Lemma probe_rejects_on_bad_argument :
  checkTcpPort Lab.default (VStr "127.0.0.1") (Js.of_Z 80) (Js.of_Z (-1))
  = Rejects "RangeError [ERR_OUT_OF_RANGE]" /\
  checkTcpPort Lab.default (VStr "127.0.0.1") (Fin (15 # 10)) (Js.of_Z 2000)
  = Rejects "RangeError [ERR_SOCKET_BAD_PORT]" /\
  tcp_check Lab.default
    {| q_host := Some "127.0.0.1"; q_port := Some "80";
       q_timeout := Some "-1" |}
  = ([EvProbe (VStr "127.0.0.1") (Js.of_Z 80) (Fin (-1 # 1))], Unhandled).
Proof. vm_compute. by repeat split. Qed.

(** ** [GET /tcp/check] *)

Lemma falsy_number (n : JsNum) :
  Js.truthy_num n = false <-> n = NaN \/ exists x, n = Fin x /\ (x == 0)%Q.
Proof.
  destruct n as [| | |x]; cbn.
  - intuition.
  - split; [discriminate | intros [?|(x & ? & _)]; discriminate].
  - split; [discriminate | intros [?|(x & ? & _)]; discriminate].
  - rewrite negb_false_iff, Qeq_bool_iff. split.
    + intros H. right. by exists x.
    + intros [?|(y & [= <-] & H)]; [discriminate | exact H].
Qed.

(** C10.  When [Number(req.query.port || 0)] is [0] or [NaN], the
    response is 400 with the message "missing host or port", and nothing
    else happens: no look-up, no range check, no probe. *)
Theorem check_port_zero_or_nan (W : World) (q : CheckQuery) :
  check_port W q = NaN \/ (exists x, check_port W q = Fin x /\ (x == 0)%Q) ->
  tcp_check W q = ([], Sent 400 (BError "missing host or port")).
Proof.
  intros H. apply falsy_number in H. unfold tcp_check.
  rewrite H. by rewrite orb_true_r.
Qed.

Lemma check_port_zero_or_nan_witness :
  tcp_check Lab.default
    {| q_host := Some "127.0.0.1"; q_port := Some "abc"; q_timeout := None |}
  = ([], Sent 400 (BError "missing host or port")) /\
  tcp_check Lab.default
    {| q_host := Some "127.0.0.1"; q_port := Some "0"; q_timeout := None |}
  = ([], Sent 400 (BError "missing host or port")).
Proof.
  split.
  - apply (check_port_zero_or_nan Lab.default). left. vm_compute. reflexivity.
  - apply (check_port_zero_or_nan Lab.default). right.
    exists (inject_Z 0). split; [vm_compute; reflexivity | reflexivity].
Defined.

(** C2, as amended.  For every request whose port number is below 1 or
    above 65535 no probe is made; the response is 400 when the host is
    missing or the port is 0, and otherwise the Authorizer is called
    first: 403 when it rejects the host, 400 ("port out of range") when
    it accepts it. *)
Theorem check_out_of_range (W : World) (q : CheckQuery) :
  out_of_range (check_port W q) = true ->
  (negb (Js.nonempty (check_host q)) || negb (Js.truthy_num (check_port W q))
   = true /\
   tcp_check W q = ([], Sent 400 (BError "missing host or port"))) \/
  (negb (Js.nonempty (check_host q)) || negb (Js.truthy_num (check_port W q))
   = false /\
   exists tr allowed,
     hostAllowedAsync W (VStr (check_host q)) = (tr, Returned allowed) /\
     List.filter is_probe tr = [] /\
     tcp_check W q
     = (tr, if allowed
            then Sent 400 (BError "port out of range")
            else Sent 403 (BError "host not allowed by server policy"))).
Proof.
  intros Hout. unfold tcp_check.
  destruct (negb (Js.nonempty (check_host q))
            || negb (Js.truthy_num (check_port W q))) eqn:Hmissing.
  - left. by split.
  - right. split; [reflexivity|].
    destruct (hostAllowedAsync_string W (check_host q))
      as (tr & allowed & -> & Hnp).
    exists tr, allowed. repeat split; [exact Hnp|].
    destruct allowed; cbn [negb]; [|reflexivity].
    unfold out_of_range in Hout. by rewrite Hout.
Qed.

Lemma check_out_of_range_witness :
  (negb (Js.nonempty (check_host
     {| q_host := Some "127.0.0.1"; q_port := Some "70000";
        q_timeout := None |}))
   || negb (Js.truthy_num (check_port Lab.default
     {| q_host := Some "127.0.0.1"; q_port := Some "70000";
        q_timeout := None |}))
   = true /\
   tcp_check Lab.default
     {| q_host := Some "127.0.0.1"; q_port := Some "70000";
        q_timeout := None |}
   = ([], Sent 400 (BError "missing host or port"))) \/
  (negb (Js.nonempty (check_host
     {| q_host := Some "127.0.0.1"; q_port := Some "70000";
        q_timeout := None |}))
   || negb (Js.truthy_num (check_port Lab.default
     {| q_host := Some "127.0.0.1"; q_port := Some "70000";
        q_timeout := None |}))
   = false /\
   exists tr allowed,
     hostAllowedAsync Lab.default (VStr (check_host
       {| q_host := Some "127.0.0.1"; q_port := Some "70000";
          q_timeout := None |})) = (tr, Returned allowed) /\
     List.filter is_probe tr = [] /\
     tcp_check Lab.default
       {| q_host := Some "127.0.0.1"; q_port := Some "70000";
          q_timeout := None |}
     = (tr, if allowed
            then Sent 400 (BError "port out of range")
            else Sent 403 (BError "host not allowed by server policy"))).
Proof.
  apply (check_out_of_range Lab.default
           {| q_host := Some "127.0.0.1"; q_port := Some "70000";
              q_timeout := None |}).
  vm_compute. reflexivity.
Defined.

(** C2 fails as stated: port 70000 on a host outside the allowlist is
    answered with 403, not 400. *)
Lemma check_out_of_range_forbidden :
  out_of_range (check_port Lab.default
    {| q_host := Some "8.8.8.8"; q_port := Some "70000";
       q_timeout := None |}) = true /\
  tcp_check Lab.default
    {| q_host := Some "8.8.8.8"; q_port := Some "70000"; q_timeout := None |}
  = ([], Sent 403 (BError "host not allowed by server policy")).
Proof. vm_compute. by split. Qed.

(** X25.  What does hold of a port probed by the single-port check: it
    is a number from 1 to 65535. *)
Lemma check_probed_port_in_range (W : World) (q : CheckQuery)
    (host : JsVal) (port timeoutMs : JsNum) :
  In (EvProbe host port timeoutMs) (fst (tcp_check W q)) ->
  exists x, port = Fin x /\ (1 <= x)%Q /\ (x <= 65535)%Q.
Proof.
  unfold tcp_check.
  destruct (negb (Js.nonempty (check_host q))
            || negb (Js.truthy_num (check_port W q))) eqn:Hmissing;
    [intros []|].
  apply orb_false_elim in Hmissing as [_ Htruthy].
  apply negb_false_iff in Htruthy.
  destruct (hostAllowedAsync_string W (check_host q))
    as (tr & allowed & -> & Hnp).
  assert (Hno : ~ In (EvProbe host port timeoutMs) tr).
  { intros Hin.
    assert (Hf : In (EvProbe host port timeoutMs) (List.filter is_probe tr))
      by (apply List.filter_In; by split).
    by rewrite Hnp in Hf. }
  destruct allowed; cbn [negb]; [|done].
  destruct (Js.lt (check_port W q) (Js.of_Z 1)) eqn:Hlow; [done|].
  destruct (Js.gt (check_port W q) (Js.of_Z 65535)) eqn:Hhigh; [done|].
  cbn [orb]. intros Hin.
  assert (Hport : port = check_port W q).
  { destruct (checkTcpPort _ _ _ _) as [e|p]; [|destruct (promise p)];
      cbn [fst] in Hin; apply in_app_or in Hin;
      destruct Hin as [?|[[= _ <- _]|[]]]; done. }
  rewrite <- Hport in *. clear Hport Hin.
  destruct port as [| | |x]; try discriminate.
  exists x. split; [done|]. unfold Js.gt, Js.lt, Js.of_Z in *.
  apply negb_false_iff in Hlow, Hhigh.
  apply Qle_bool_iff in Hlow, Hhigh. by split.
Qed.

(** C9 fails on the code: the port "1.5" passes the checks of lines 131
    and 134 and is handed to the probe, although it is not an integer.
    [socket.connect] throws on it, and the handler ends with that
    exception instead of a response. *)
Lemma check_probes_fractional_port :
  tcp_check Lab.default
    {| q_host := Some "127.0.0.1"; q_port := Some "1.5"; q_timeout := None |}
  = ([EvProbe (VStr "127.0.0.1") (Fin (15 # 10)) (Js.of_Z 2000)],
     Unhandled) /\
  Js.isInteger (VNum (Fin (15 # 10))) = false.
Proof. vm_compute. by split. Qed.

(** ** The scheduler *)

Section SchedFacts.

Context {T A : Type}.
Variable fn : T -> Sched.Behaviour A.
Variable concurrency : JsNum.
Variable items : list T.

Import Sched.

Local Ltac open_state st :=
  destruct st as [td nx ex vl fl rc qu rs aw rt];
  cbn [todo next executing value inflight racing queue races awaiting
       returned enqueue] in *.

(** [Promise.race] in closed form: the settled members queue their
    reaction, the pending ones record it. *)
Lemma subscribe_all k l (st : State T A) :
  fold_left (subscribe k) l st
  = {| todo := todo st; next := next st; executing := executing st;
       value := value st; inflight := inflight st;
       racing := racing st
                 ++ ((fun j => (j, k))
                       <$> filter (fun j => value st !! j = None) l);
       queue := queue st
                ++ (JRace k <$> filter (fun j => is_Some (value st !! j)) l);
       races := races st; awaiting := awaiting st;
       returned := returned st |}.
Proof.
  revert st. induction l as [|j l IH]; intros st.
  - open_state st. by rewrite !app_nil_r.
  - cbn [fold_left]. rewrite IH. unfold subscribe.
    destruct (value st !! j) as [v|] eqn:Hj; open_state st.
    + rewrite filter_cons_False by (rewrite Hj; done).
      rewrite filter_cons_True by (rewrite Hj; done).
      by rewrite fmap_cons, <- app_assoc.
    + rewrite filter_cons_True by done.
      rewrite filter_cons_False by (rewrite Hj; by intros []).
      by rewrite fmap_cons, <- app_assoc.
Qed.


(** Lines 113-118 in closed form, for a fresh [p]. *)
Lemma spawn_eq item (st : State T A) :
  value st !! next st = None →
  register (create fn item st)
  = {| todo := todo st; next := S (next st);
       executing := executing st ++ [next st];
       value := match fn item with
                | Throws e => <[next st := ErrorObj e]> (value st)
                | _ => value st
                end;
       inflight := match fn item with
                   | Deferred fate => <[next st := fate]> (inflight st)
                   | _ => inflight st
                   end;
       racing := racing st;
       queue := queue st ++ match fn item with
                            | Throws e => [JFinally (next st)]
                            | Immediate s => [JCont (next st) s]
                            | Deferred _ => []
                            end;
       races := races st; awaiting := awaiting st;
       returned := returned st |}.
Proof.
  intros Hfresh. unfold register, create.
  destruct (fn item) as [e|s|fate]; open_state st.
  - by rewrite lookup_insert_eq.
  - by rewrite Hfresh.
  - by rewrite Hfresh, app_nil_r.
Qed.

Lemma sound_fresh rest (st : State T A) :
  sound fn items rest st → value st !! next st = None.
Proof.
  intros Hs. destruct (value st !! next st) as [v|] eqn:Hv; [|done].
  apply (sound_value _ _ _ _ Hs) in Hv as [? _]. lia.
Qed.

Lemma sound_spawn item rest (st : State T A) :
  sound fn items (item :: rest) st →
  sound fn items rest (register (create fn item st)).
Proof.
  intros Hs. rewrite spawn_eq by (by eapply sound_fresh).
  destruct Hs as [Hrest Hnext Hsize Hval Hfl Hq].
  assert (Hitem : items !! next st = Some item).
  { rewrite <- (Nat.add_0_r (next st)), <- lookup_drop, <- Hrest. done. }
  assert (Hlt : (next st < length items)%nat) by by eapply lookup_lt_Some.
  assert (Hweak : ∀ (i : nat) (P : Prop),
             (i < next st)%nat ∧ P → (i < S (next st))%nat ∧ P).
  { intros i P [? ?]. split; [lia | done]. }
  constructor; cbn.
  - replace (S (next st)) with (next st + 1)%nat by lia.
    by rewrite <- drop_drop, <- Hrest.
  - lia.
  - rewrite length_app. cbn. lia.
  - intros i v. destruct (fn item) as [e|s|fate] eqn:Hfn;
      [|intros Hv; by apply Hweak, Hval..].
    rewrite lookup_insert. case_decide as Hi.
    + intros [= <-]. subst i. split; [lia|]. exists item. by rewrite Hfn.
    + intros Hv. by apply Hweak, Hval.
  - intros i fate'.
    destruct (fn item) as [e|s|fate] eqn:Hfn;
      [intros Hv; by apply Hweak, Hfl..|].
    rewrite lookup_insert. case_decide as Hi;
      [|intros Hv; by apply Hweak, Hfl].
    intros [= <-]. subst i. split; [lia|]. by exists item.
  - intros i s'. rewrite elem_of_app.
    intros [Hin|Hin]; [by apply Hweak, Hq|].
    destruct (fn item) as [e|s|fate] eqn:Hfn.
    + apply list_elem_of_singleton in Hin. discriminate.
    + apply list_elem_of_singleton in Hin. injection Hin as -> ->.
      split; [lia|]. exists item. by rewrite Hfn.
    + by apply elem_of_nil in Hin.
Qed.

Lemma sound_race rest rest' (st : State T A) :
  sound fn items rest st → sound fn items rest (race rest' st).
Proof.
  intros [Hrest Hnext Hsize Hval Hfl Hq]. unfold race.
  rewrite subscribe_all. constructor; cbn; try done.
  intros i s. rewrite elem_of_app. intros [Hin|Hin]; [by apply Hq|].
  apply list_elem_of_fmap in Hin as (j & [=] & _).
Qed.

Lemma sound_loop rest (st : State T A) :
  sound fn items rest st →
  sound fn items (todo (loop fn concurrency rest st))
    (loop fn concurrency rest st).
Proof.
  revert st. induction rest as [|item rest IH]; intros st Hs.
  - destruct Hs. by constructor.
  - cbn [loop]. apply sound_spawn in Hs.
    destruct (full concurrency _).
    + unfold race at 1. cbn [todo]. by apply sound_race.
    + by apply IH.
Qed.


Lemma sound_empty : sound fn items items (@empty T A).
Proof.
  constructor; cbn; try done; try lia.
  - intros i s Hin. by apply elem_of_nil in Hin.
Qed.

Lemma sound_step (st st' : State T A) :
  sound fn items (todo st) st → step fn concurrency st st' →
  sound fn items (todo st') st'.
Proof.
  intros Hs Hstep. destruct Hstep as [j q st Hqueue | i s st Hfl].
  - assert (Hpop : sound fn items (todo st) (pop q st)).
    { destruct Hs as [? ? ? ? ? Hq]. constructor; cbn; try done.
      intros i s Hin. apply Hq. rewrite Hqueue. by apply elem_of_cons; right. }
    destruct j as [i s|i|k i|]; cbn [run_job].
    + destruct (sound_queue _ _ _ _ Hs i s) as (Hlt & x & Hx & Hset).
      { rewrite Hqueue. apply elem_of_cons. by left. }
      destruct Hpop as [Hrest Hnext Hsize Hval Hinf Hq].
      constructor; cbn in *; try done.
      * intros i' v. rewrite lookup_insert. case_decide as Hi.
        -- intros [= <-]. subst i'. split; [done | by exists x].
        -- apply Hval.
      * intros i' s'. rewrite elem_of_app, elem_of_cons.
        intros [Hin|[[=]|Hin]]; [by apply Hq|].
        apply list_elem_of_fmap in Hin as (r & [=] & _).
    + destruct Hpop as [Hrest Hnext Hsize Hval Hinf Hq].
      constructor; cbn in *; try done.
      etrans; [apply length_filter|done].
    + case_decide; [|done].
      destruct Hpop as [Hrest Hnext Hsize Hval Hinf Hq].
      constructor; cbn in *; try done.
      intros i' s'. rewrite elem_of_app. intros [Hin|Hin]; [by apply Hq|].
      apply list_elem_of_singleton in Hin. discriminate.
    + apply sound_loop. exact Hpop.
  - destruct (sound_inflight _ _ _ _ Hs i _ Hfl) as (Hlt & x & Hx & Hfn).
    destruct Hs as [Hrest Hnext Hsize Hval Hinf Hq].
    constructor; cbn in *; try done.
    + intros i' fate. rewrite lookup_delete. case_decide; [done|apply Hinf].
    + intros i' s'. rewrite elem_of_app. intros [Hin|Hin]; [by apply Hq|].
      apply list_elem_of_singleton in Hin. injection Hin as -> ->.
      split; [done|]. exists x. by rewrite Hfn.
Qed.


(** *** The loop is suspended, resumable or done *)

Lemma no_resume (q : list (Job A)) :
  JResume ∉ q ↔ List.filter is_resume q = [].
Proof.
  induction q as [|j q IH]; cbn.
  - split; [done | intros _ H; by apply elem_of_nil in H].
  - rewrite not_elem_of_cons, IH. destruct j; cbn; naive_solver.
Qed.

Lemma resume_app (q q' : list (Job A)) :
  List.filter is_resume (q ++ q')
  = List.filter is_resume q ++ List.filter is_resume q'.
Proof. apply List.filter_app. Qed.

Lemma running_spawn item (st : State T A) :
  value st !! next st = None →
  running st → running (register (create fn item st)).
Proof.
  intros Hfresh (Haw & Hret & Hq). rewrite spawn_eq by done.
  repeat split; cbn; try done.
  rewrite not_elem_of_app. split; [done|].
  destruct (fn item); set_solver.
Qed.

Lemma parked_race rest (st : State T A) :
  running st → parked (race rest st).
Proof.
  intros (Haw & Hret & Hq). unfold race. rewrite subscribe_all.
  constructor; cbn; try congruence.
  rewrite resume_app. apply no_resume in Hq. rewrite Hq. cbn.
  apply no_resume. intros Hin.
  apply list_elem_of_fmap in Hin as (j & [=] & _).
Qed.

Lemma parked_loop rest (st : State T A) :
  sound fn items rest st → running st →
  parked (loop fn concurrency rest st).
Proof.
  revert st. induction rest as [|item rest IH]; intros st Hs Hrun.
  - destruct Hrun as (Haw & Hret & Hq). cbn [loop].
    constructor; cbn; try done.
    rewrite Haw. apply no_resume in Hq. rewrite Hq. cbn. lia.
  - cbn [loop]. pose proof (sound_fresh _ _ Hs) as Hfresh.
    apply sound_spawn in Hs. apply (running_spawn item) in Hrun; [|done].
    destruct (full concurrency _).
    + by apply parked_race.
    + by apply IH.
Qed.

Lemma parked_pop_resume q (st : State T A) :
  parked st → queue st = JResume :: q → running (pop q st).
Proof.
  intros [Hret Hres Hsingle] Hq. rewrite Hq in *. cbn in Hsingle.
  destruct (awaiting st) as [k|] eqn:Haw; [done|].
  repeat split; cbn.
  - done.
  - destruct (returned st); [|done].
    destruct Hret as (_ & _ & Hno); [done|]. set_solver.
  - apply no_resume. destruct (List.filter is_resume q); [done|cbn in *; lia].
Qed.

Lemma parked_step (st st' : State T A) :
  sound fn items (todo st) st → parked st →
  step fn concurrency st st' → parked st'.
Proof.
  intros Hs Hp Hstep. destruct Hstep as [j q st Hqueue | i s st Hfl].
  - destruct j as [i s|i|k i|]; cbn [run_job].
    + destruct Hp as [Hret Hres Hsingle]. rewrite Hqueue in *.
      constructor; cbn in *.
      * intros Hr. destruct (Hret Hr) as (? & ? & ?).
        repeat split; try done. set_solver.
      * intros Hr Ha. specialize (Hres Hr Ha). set_solver.
      * rewrite resume_app. cbn.
        replace (List.filter is_resume
                   (map (λ r : nat * nat, JRace r.2 i)
                      (filter (λ r : nat * nat, r.1 = i) (racing st))))
          with (@nil (Job A)); [by rewrite app_nil_r|].
        symmetry. apply no_resume. set_solver.
    + destruct Hp as [Hret Hres Hsingle]. rewrite Hqueue in *.
      constructor; cbn in *; try done.
      * intros Hr. destruct (Hret Hr) as (? & ? & ?).
        repeat split; try done. set_solver.
      * intros Hr Ha. specialize (Hres Hr Ha). set_solver.
    + destruct Hp as [Hret Hres Hsingle]. rewrite Hqueue in *.
      case_decide as Haw; cbn in *.
      * rewrite Haw in *. constructor; cbn; try done.
        -- intros Hr. by destruct (Hret Hr) as (? & ? & ?).
        -- intros _ _. set_solver.
        -- rewrite resume_app, Hsingle. cbn. lia.
      * constructor; cbn in *; try done.
        -- intros Hr. destruct (Hret Hr) as (? & ? & ?).
           repeat split; try done. set_solver.
        -- intros Hr Ha. specialize (Hres Hr Ha). set_solver.
    + apply (parked_loop (todo st)).
      * destruct Hs as [? ? ? ? ? Hq]. constructor; cbn; try done.
        intros i s Hin. apply Hq. rewrite Hqueue. set_solver.
      * by apply parked_pop_resume.
  - destruct Hp as [Hret Hres Hsingle].
    constructor; cbn in *.
    + intros Hr. destruct (Hret Hr) as (? & ? & ?).
      repeat split; try done. set_solver.
    + intros Hr Ha. specialize (Hres Hr Ha). set_solver.
    + rewrite resume_app. cbn. by rewrite app_nil_r.
Qed.


(** *** Nothing is lost *)

Lemma live_spawn item rest (st : State T A) :
  sound fn items rest st → running st → live st →
  live (register (create fn item st)).
Proof.
  intros Hs (Haw & _ & _) [Hpend Hrace].
  rewrite spawn_eq by (by eapply sound_fresh).
  constructor; cbn; [|congruence].
  intros i Hi Hv. destruct (decide (i = next st)) as [->|Hne].
  - destruct (fn item) as [e|s|fate].
    + by rewrite lookup_insert_eq in Hv.
    + right. exists s. set_solver.
    + left. by rewrite lookup_insert_eq.
  - assert (Hv' : value st !! i = None).
    { destruct (fn item); try done. by rewrite lookup_insert_ne in Hv. }
    assert (Hi' : (i < next st)%nat) by lia.
    destruct (Hpend i Hi' Hv') as [Hfl|(s & Hin)].
    + left. destruct (fn item); try done.
      by rewrite lookup_insert_ne.
    + right. exists s. set_solver.
Qed.

Lemma live_raced rest (st : State T A) :
  (∃ i, i ∈ executing st ∧ (i < next st)%nat) →
  live st → live (race rest st).
Proof.
  intros (i & Hi & Hlt) [Hpend _]. unfold race. rewrite subscribe_all.
  constructor; cbn.
  - intros j Hj Hv. destruct (Hpend j Hj Hv) as [?|(s & ?)]; [by left|].
    right. exists s. set_solver.
  - intros k [= <-]. exists i.
    destruct (value st !! i) as [v|] eqn:Hv.
    + left. rewrite elem_of_app. right.
      apply list_elem_of_fmap. exists i. split; [done|].
      apply list_elem_of_filter. split; [by rewrite Hv | done].
    + right. repeat split; try done.
      rewrite elem_of_app. right.
      apply list_elem_of_fmap. exists i. split; [done|].
      by apply list_elem_of_filter.
Qed.

Lemma live_loop rest (st : State T A) :
  sound fn items rest st → running st → live st →
  live (loop fn concurrency rest st).
Proof.
  revert st. induction rest as [|item rest IH]; intros st Hs Hrun Hl.
  - destruct Hrun as (Haw & _ & _). destruct Hl as [Hpend Hrace].
    constructor; cbn; [done | congruence].
  - cbn [loop]. pose proof (sound_fresh _ _ Hs) as Hfresh.
    pose proof (live_spawn item _ _ Hs Hrun Hl) as Hl'.
    apply (running_spawn item) in Hrun; [|done].
    apply sound_spawn in Hs.
    destruct (full concurrency _).
    + apply live_raced; [|done]. rewrite spawn_eq by done. cbn.
      exists (next st). split; [set_solver | lia].
    + by apply IH.
Qed.

Lemma live_step (st st' : State T A) :
  sound fn items (todo st) st → parked st → live st →
  step fn concurrency st st' → live st'.
Proof.
  intros Hs Hp Hl Hstep. destruct Hstep as [j q st Hqueue | i s st Hfl].
  - destruct j as [i s|i|k i|]; cbn [run_job].
    + destruct Hl as [Hpend Hrace]. rewrite Hqueue in *.
      constructor; cbn in *.
      * intros j Hj. rewrite lookup_insert. case_decide as Hne; [done|].
        intros Hv. destruct (Hpend j Hj Hv) as [?|(s' & Hin)]; [by left|].
        right. exists s'. apply elem_of_cons in Hin as [[=]|Hin]; [done|].
        set_solver.
      * intros k Hk. destruct (Hrace k Hk) as (j & [Hin|(Hj & Hv & Hin)]).
        -- exists j. left. set_solver.
        -- exists j. destruct (decide (j = i)) as [->|Hne].
           ++ left. rewrite elem_of_app. right. apply elem_of_cons. right.
              apply list_elem_of_fmap. exists (i, k). split; [done|].
              by apply list_elem_of_filter.
           ++ right. rewrite lookup_insert_ne by done.
              repeat split; try done. by apply list_elem_of_filter.
    + destruct Hl as [Hpend Hrace]. rewrite Hqueue in *.
      constructor; cbn in *.
      * intros j Hj Hv. destruct (Hpend j Hj Hv) as [?|(s' & Hin)];
          [by left|]. right. exists s'. set_solver.
      * intros k Hk. destruct (Hrace k Hk) as (j & [Hin|?]); exists j;
          [left; set_solver | by right].
    + destruct Hl as [Hpend Hrace]. rewrite Hqueue in *.
      case_decide as Haw; constructor; cbn in *.
      * intros j Hj Hv. destruct (Hpend j Hj Hv) as [?|(s' & Hin)];
          [by left|]. right. exists s'. set_solver.
      * done.
      * intros j Hj Hv. destruct (Hpend j Hj Hv) as [?|(s' & Hin)];
          [by left|]. right. exists s'. set_solver.
      * intros k' Hk. destruct (Hrace k' Hk) as (j & [Hin|?]); exists j;
          [left | by right].
        apply elem_of_cons in Hin as [[= -> ->]|Hin]; [congruence | done].
    + apply (live_loop (todo st)).
      * destruct Hs as [? ? ? ? ? Hq]. constructor; cbn; try done.
        intros i s Hin. apply Hq. rewrite Hqueue. set_solver.
      * by apply parked_pop_resume.
      * pose proof (parked_pop_resume _ _ Hp Hqueue) as (Haw & _ & _).
        destruct Hl as [Hpend Hrace]. rewrite Hqueue in *.
        constructor; cbn in *; [|congruence].
        intros j Hj Hv. destruct (Hpend j Hj Hv) as [?|(s' & Hin)];
          [by left|]. right. exists s'. set_solver.
  - destruct Hl as [Hpend Hrace]. constructor; cbn in *.
    + intros j Hj Hv. destruct (decide (j = i)) as [->|Hne].
      * right. exists s. set_solver.
      * destruct (Hpend j Hj Hv) as [?|(s' & Hin)].
        -- left. by rewrite lookup_delete_ne.
        -- right. exists s'. set_solver.
    + intros k Hk. destruct (Hrace k Hk) as (j & [Hin|?]); exists j;
        [left; set_solver | by right].
Qed.

Lemma live_empty : live (@empty T A).
Proof. constructor; cbn; [lia | done]. Qed.

Lemma running_empty : running (@empty T A).
Proof. repeat split. set_solver. Qed.

(** Every state of a call satisfies the three invariants. *)
Lemma reachable_inv (st : State T A) :
  reachable fn concurrency items st →
  sound fn items (todo st) st ∧ parked st ∧ live st.
Proof.
  induction 1 as [|st st' _ (Hs & Hp & Hl) Hstep].
  - unfold mapWithConcurrency. split; [|split].
    + exact (sound_loop items empty sound_empty).
    + apply (parked_loop items); [apply sound_empty | apply running_empty].
    + apply (live_loop items);
        [apply sound_empty | apply running_empty | apply live_empty].
  - split; [|split].
    + by eapply sound_step.
    + by eapply parked_step.
    + by eapply live_step.
Qed.


(** *** The value of the call *)

(** In whatever order the workers settle, the array the call resolves
    with is the one [mapWithConcurrency_value] computes. *)
Lemma correct (st : State T A) rs :
  reachable fn concurrency items st →
  outcome st = Some rs →
  mapWithConcurrency_value items fn = Some rs.
Proof.
  intros Hreach Hout. destruct (reachable_inv _ Hreach) as (Hs & Hp & _).
  unfold outcome in Hout. destruct (returned st) eqn:Hret; [|done].
  destruct (parked_returned _ Hp Hret) as (Htodo & _ & _).
  assert (Hnext : next st = length items).
  { pose proof (sound_rest _ _ _ _ Hs) as Hd. rewrite Htodo in Hd.
    pose proof (sound_next _ _ _ _ Hs).
    apply (f_equal length) in Hd. rewrite length_drop in Hd. cbn in Hd. lia. }
  apply mapM_Some_1 in Hout. apply mapM_Some_2.
  apply Forall2_same_length_lookup. split.
  - apply Forall2_length in Hout. rewrite length_seq in Hout. lia.
  - intros i x y Hx Hy.
    assert (Hi : seq 0 (next st) !! i = Some i).
    { apply lookup_seq. split; [done|]. rewrite Hnext.
      by eapply lookup_lt_Some. }
    pose proof (Forall2_lookup_lr _ _ _ _ _ _ Hout Hi Hy) as Hv.
    destruct (sound_value _ _ _ _ Hs _ _ Hv) as (_ & x' & Hx' & Hset).
    congruence.
Qed.

(** *** Progress *)

Lemma first_settling_Some (st : State T A) i s :
  first_settling st = Some (i, s) → inflight st !! i = Some (Some s).
Proof.
  unfold first_settling. intros H. apply head_Some_elem_of in H.
  apply list_elem_of_omap in H as ([j fate] & Hin & Heq).
  apply elem_of_map_to_list in Hin.
  destruct fate as [s'|]; [|done]. cbn in Heq. by injection Heq as -> ->.
Qed.

Lemma first_settling_None (st : State T A) i s :
  first_settling st = None → inflight st !! i ≠ Some (Some s).
Proof.
  unfold first_settling. intros H Hfl. apply head_None in H.
  apply elem_of_map_to_list in Hfl.
  assert (Hin : (i, s) ∈ omap (λ '(i, fate), pair i <$> fate)
                  (map_to_list (inflight st))).
  { apply list_elem_of_omap. by exists (i, Some s). }
  rewrite H in Hin. by apply elem_of_nil in Hin.
Qed.

Lemma advance_step (st st' : State T A) :
  advance fn concurrency st = Some st' → step fn concurrency st st'.
Proof.
  unfold advance. destruct (queue st) as [|j q] eqn:Hq.
  - destruct (first_settling st) as [[i s]|] eqn:Hf; [|done].
    intros [= <-]. apply step_settle. by apply first_settling_Some.
  - intros [= <-]. by apply step_job.
Qed.

(** When every worker settles, a state without a step has the result. *)
Lemma progress (st : State T A) :
  (∀ x, x ∈ items → is_Some (settles (fn x))) →
  reachable fn concurrency items st →
  advance fn concurrency st = None →
  is_Some (outcome st).
Proof.
  intros Hall Hreach Hadv.
  destruct (reachable_inv _ Hreach) as (Hs & Hp & Hl).
  unfold advance in Hadv. destruct (queue st) as [|j q] eqn:Hq; [|done].
  destruct (first_settling st) as [[i s]|] eqn:Hf; [done|]. clear Hadv.
  assert (Hidle : ∀ i, inflight st !! i = None).
  { intros i. destruct (inflight st !! i) as [fate|] eqn:Hfl; [|done].
    destruct (sound_inflight _ _ _ _ Hs _ _ Hfl) as (_ & x & Hx & Hfn).
    destruct (Hall x) as [v Hv]; [by eapply list_elem_of_lookup_2|].
    rewrite Hfn in Hv. destruct fate as [s|]; [|done].
    by apply (first_settling_None _ i s) in Hf. }
  assert (Hsettled : ∀ i, (i < next st)%nat → is_Some (value st !! i)).
  { intros i Hi. destruct (value st !! i) as [v|] eqn:Hv; [done|].
    destruct (live_pending _ Hl i Hi Hv) as [Hfl|(s & Hin)].
    - rewrite Hidle in Hfl. by destruct Hfl.
    - rewrite Hq in Hin. by apply elem_of_nil in Hin. }
  assert (Hret : returned st = true).
  { destruct (returned st) eqn:Hret; [done|].
    destruct (awaiting st) as [k|] eqn:Haw.
    - destruct (live_race _ Hl k Haw) as (i & [Hin|(Hi & Hv & _)]).
      + rewrite Hq in Hin. by apply elem_of_nil in Hin.
      + destruct (Hsettled i Hi) as [v Hv']. congruence.
    - pose proof (parked_resume _ Hp Hret Haw) as Hin.
      rewrite Hq in Hin. by apply elem_of_nil in Hin. }
  unfold outcome. rewrite Hret. apply mapM_is_Some_2.
  apply Forall_forall. intros i Hi. apply elem_of_seq in Hi.
  apply Hsettled. lia.
Qed.


(** *** Termination *)

Lemma weight_races k (l : list nat) :
  sum_list_with job_weight (JRace (A:=A) k <$> l) = length l.
Proof. induction l as [|j l IH]; cbn; [done | by rewrite IH]. Qed.

Lemma weight_reactions i (l : list (nat * nat)) :
  sum_list_with job_weight (map (λ r, JRace (A:=A) r.2 i) l) = length l.
Proof. induction l as [|j l IH]; cbn; [done | by rewrite IH]. Qed.

Lemma length_settled_pending (vl : gmap nat (Item A)) (l : list nat) :
  (length (filter (λ j, is_Some (vl !! j)) l)
   + length (filter (λ j, vl !! j = None) l))%nat = length l.
Proof.
  induction l as [|j l IH]; [done|].
  destruct (vl !! j) as [v|] eqn:Hj.
  - rewrite filter_cons_True by (by rewrite Hj).
    rewrite (filter_cons_False (λ j, vl !! j = None)) by (by rewrite Hj).
    cbn. lia.
  - rewrite filter_cons_False by (rewrite Hj; by intros []).
    rewrite (filter_cons_True (λ j, vl !! j = None)) by done.
    cbn. lia.
Qed.

Lemma length_split_by (i : nat) (l : list (nat * nat)) :
  (length (filter (λ r, r.1 = i) l)
   + length (filter (λ r, r.1 ≠ i) l))%nat = length l.
Proof.
  induction l as [|r l IH]; [done|].
  destruct (decide (r.1 = i)) as [Hr|Hr].
  - rewrite filter_cons_True by done.
    rewrite (filter_cons_False (λ r, r.1 ≠ i)) by (by intros ?).
    cbn. lia.
  - rewrite filter_cons_False by done.
    rewrite (filter_cons_True (λ r, r.1 ≠ i)) by done.
    cbn. lia.
Qed.

Lemma measure_spawn item rest (st : State T A) :
  sound fn items (item :: rest) st →
  (measure items rest (register (create fn item st)) + length items + 3
   ≤ measure items (item :: rest) st)%nat.
Proof.
  intros Hs. rewrite spawn_eq by (by eapply sound_fresh).
  assert (Hfl : inflight st !! next st = None).
  { destruct (inflight st !! next st) as [fate|] eqn:Hfl; [|done].
    apply (sound_inflight _ _ _ _ Hs) in Hfl as [? _]. lia. }
  unfold measure. cbn. rewrite sum_list_with_app.
  destruct (fn item) as [e|s|fate]; cbn.
  - lia.
  - lia.
  - rewrite map_size_insert_None by done. lia.
Qed.

Lemma measure_race rest rest' (st : State T A) :
  awaiting st = None →
  measure items rest (race rest' st)
  = (measure items rest st + length (executing st) + 2)%nat.
Proof.
  intros Haw. unfold race. rewrite subscribe_all. unfold measure. cbn.
  rewrite Haw, sum_list_with_app, weight_races, length_app, length_fmap.
  pose proof (length_settled_pending (value st) (executing st)). lia.
Qed.

Lemma measure_loop rest (st : State T A) :
  sound fn items rest st → running st →
  (measure items (todo (loop fn concurrency rest st))
     (loop fn concurrency rest st)
   ≤ measure items rest st)%nat.
Proof.
  revert st. induction rest as [|item rest IH]; intros st Hs Hrun.
  - cbn [loop]. unfold measure. cbn. lia.
  - cbn [loop]. pose proof (measure_spawn _ _ _ Hs) as Hm.
    pose proof (sound_fresh _ _ Hs) as Hfresh.
    apply sound_spawn in Hs. apply (running_spawn item) in Hrun; [|done].
    destruct (full concurrency _).
    + unfold race at 1. cbn [todo].
      rewrite measure_race by apply Hrun.
      pose proof (sound_size _ _ _ _ Hs). pose proof (sound_next _ _ _ _ Hs).
      lia.
    + etrans; [by apply IH|]. lia.
Qed.

(** Every step decreases the measure: every schedule is finite. *)
Lemma measure_step (st st' : State T A) :
  sound fn items (todo st) st → parked st →
  step fn concurrency st st' →
  (measure items (todo st') st' < measure items (todo st) st)%nat.
Proof.
  intros Hs Hp Hstep. destruct Hstep as [j q st Hqueue | i s st Hfl].
  - destruct j as [i s|i|k i|]; cbn [run_job].
    + unfold measure. cbn. rewrite Hqueue. cbn.
      rewrite sum_list_with_app. cbn. rewrite weight_reactions.
      pose proof (length_split_by i (racing st)). lia.
    + unfold measure. cbn. rewrite Hqueue. cbn. lia.
    + case_decide as Haw.
      * cbn in Haw. unfold measure. cbn. rewrite Hqueue, Haw. cbn.
        rewrite sum_list_with_app. cbn. lia.
      * unfold measure. cbn. rewrite Hqueue. cbn. lia.
    + assert (Hpop : sound fn items (todo st) (pop q st)).
      { destruct Hs as [? ? ? ? ? Hq]. constructor; cbn; try done.
        intros i s Hin. apply Hq. rewrite Hqueue. set_solver. }
      pose proof (measure_loop _ _ Hpop (parked_pop_resume _ _ Hp Hqueue)) as Hm.
      eapply Nat.le_lt_trans; [exact Hm|].
      unfold measure. cbn. rewrite Hqueue. cbn. lia.
  - unfold measure. cbn. rewrite sum_list_with_app. cbn.
    rewrite map_size_delete_Some by done.
    assert (size (inflight st) ≠ 0%nat).
    { intros H0. apply map_size_empty_iff in H0. by rewrite H0 in Hfl. }
    lia.
Qed.

(** The schedule [run] reaches the result when every worker settles. *)
Lemma run_reachable n (st : State T A) :
  reachable fn concurrency items st →
  reachable fn concurrency items (run fn concurrency n st).
Proof.
  revert st. induction n as [|n IH]; intros st Hreach; [done|].
  cbn [run]. destruct (advance fn concurrency st) as [st'|] eqn:Hadv; [|done].
  apply IH. eapply reach_step; [done|]. by apply advance_step.
Qed.

Lemma run_idle n (st : State T A) :
  reachable fn concurrency items st →
  (measure items (todo st) st ≤ n)%nat →
  advance fn concurrency (run fn concurrency n st) = None.
Proof.
  revert st. induction n as [|n IH]; intros st Hreach Hm.
  - cbn [run]. destruct (advance fn concurrency st) as [st'|] eqn:Hadv; [|done].
    apply advance_step in Hadv.
    destruct (reachable_inv _ Hreach) as (Hs & Hp & _).
    pose proof (measure_step _ _ Hs Hp Hadv). lia.
  - cbn [run]. destruct (advance fn concurrency st) as [st'|] eqn:Hadv; [|done].
    pose proof (advance_step _ _ Hadv) as Hstep.
    destruct (reachable_inv _ Hreach) as (Hs & Hp & _).
    pose proof (measure_step _ _ Hs Hp Hstep).
    apply IH; [by eapply reach_step | lia].
Qed.

Lemma run_completes rs :
  mapWithConcurrency_value items fn = Some rs →
  ∃ n, outcome (run fn concurrency n (mapWithConcurrency fn concurrency items))
       = Some rs.
Proof.
  intros Hval.
  set (st0 := mapWithConcurrency fn concurrency items).
  exists (measure items (todo st0) st0).
  assert (Hreach : reachable fn concurrency items
                     (run fn concurrency (measure items (todo st0) st0) st0)).
  { apply run_reachable, reach_call. }
  destruct (progress (run fn concurrency (measure items (todo st0) st0) st0))
    as [rs' Hout]; [|done| |].
  - intros x Hx.
    assert (Hsome : is_Some (mapM (λ item, settles (fn item)) items))
      by (by exists rs).
    apply mapM_is_Some_1 in Hsome.
    rewrite Forall_forall in Hsome. by apply Hsome.
  - apply run_idle; [apply reach_call | done].
  - rewrite Hout. f_equal.
    apply (correct _ _ Hreach) in Hout. congruence.
Qed.


(** *** The bound on [executing] *)

Lemma split_app {X} (l e q1 q2 : list X) (x : X) :
  l ++ e = q1 ++ x :: q2 →
  (∃ r, l = q1 ++ x :: r) ∨ (∃ p, q1 = l ++ p ∧ e = p ++ x :: q2).
Proof.
  revert q1. induction l as [|y l IH]; intros q1 Heq.
  - right. by exists q1.
  - destruct q1 as [|z q1]; cbn in Heq.
    + injection Heq as -> Heq. left. by exists l.
    + injection Heq as -> Heq. destruct (IH _ Heq) as [(r & ->)|(p & -> & ->)].
      * left. by exists r.
      * right. by exists p.
Qed.

Section Bound.

Variable cap : nat.
Hypothesis Hfills : fills concurrency cap.

Lemma bounded_spawn item rest (st : State T A) :
  sound fn items rest st → running st →
  (length (executing st) < cap)%nat →
  bounded cap st → bounded cap (register (create fn item st)).
Proof.
  intros Hs (Haw & _ & Hnores) Hlen Hb.
  pose proof (sound_fresh _ _ Hs) as Hfresh.
  assert (Hflfresh : inflight st !! next st = None).
  { destruct (inflight st !! next st) as [fate|] eqn:Hfl; [|done].
    apply (sound_inflight _ _ _ _ Hs) in Hfl as [? _]. lia. }
  rewrite spawn_eq by done.
  destruct Hb as [Hnd Hfr Hcap Hres Hfin Hrc Hawt Hmem Hord Hinf Hqd].
  constructor; cbn.
  - apply NoDup_app. split; [done|]. split; [|apply NoDup_singleton].
    intros i Hi ->%list_elem_of_singleton. apply Hfr in Hi. lia.
  - intros i [Hi| ->%list_elem_of_singleton]%elem_of_app; [|lia].
    apply Hfr in Hi. lia.
  - rewrite length_app. cbn. lia.
  - intros [Hin|Hin]%elem_of_app; [done|].
    destruct (fn item); set_solver.
  - intros i [Hi| ->%list_elem_of_singleton]%elem_of_app Hv.
    + rewrite elem_of_app. left. apply Hfin; [done|].
      apply Hfr in Hi. destruct (fn item); try done.
      rewrite lookup_insert_ne in Hv by lia. done.
    + rewrite elem_of_app. right. destruct (fn item); [set_solver|..].
      * rewrite Hfresh in Hv. by destruct Hv.
      * rewrite Hfresh in Hv. by destruct Hv.
  - intros k i [[Hin|Hin]%elem_of_app|Hin]; [by eapply Hrc; left| |by eapply Hrc; right].
    destruct (fn item); set_solver.
  - congruence.
  - congruence.
  - congruence.
  - intros i Hi. rewrite elem_of_app.
    destruct (decide (i = next st)) as [->|Hne]; [right; set_solver|].
    left. apply Hinf. destruct (fn item); try done.
    by rewrite lookup_insert_ne in Hi.
  - intros i Hi.
    assert (Hold : JFinally i ∈ queue st ∨ (∃ s, JCont i s ∈ queue st)
                   ∨ i = next st).
    { destruct Hi as [Hi|(s & Hi)]; apply elem_of_app in Hi as [Hi|Hi].
      - by left.
      - right; right. destruct (fn item); set_solver.
      - right; left. by exists s.
      - right; right. destruct (fn item); set_solver. }
    destruct Hold as [Hold|[Hold| ->]].
    + destruct (Hqd i) as [? ?]; [by left|]. split; [|lia].
      destruct (fn item); try done. by rewrite lookup_insert_ne by lia.
    + destruct (Hqd i) as [? ?]; [by right|]. split; [|lia].
      destruct (fn item); try done. by rewrite lookup_insert_ne by lia.
    + split; [|lia]. destruct Hi as [Hi|(s & Hi)];
        apply elem_of_app in Hi as [Hi|Hi].
      * destruct (Hqd (next st)) as [? ?]; [by left|lia].
      * destruct (fn item); set_solver.
      * destruct (Hqd (next st)) as [? ?]; [right; by exists s|lia].
      * destruct (fn item); set_solver.
Qed.


Lemma bounded_race rest (st : State T A) :
  running st → bounded cap st → bounded cap (race rest st).
Proof.
  intros (Haw & _ & Hnores) Hb. unfold race. rewrite subscribe_all.
  destruct Hb as [Hnd Hfr Hcap Hres Hfin Hrc Hawt Hmem Hord Hinf Hqd].
  assert (Hnew : ∀ k i,
    (JRace k i ∈ queue st
                ++ (JRace k <$> filter (λ j, is_Some (value st !! j))
                                       (executing st)) ∨
     (i, k) ∈ racing st
               ++ ((λ j, (j, k)) <$> filter (λ j, value st !! j = None)
                                           (executing st))) →
    (JRace k i ∈ queue st ∨ (i, k) ∈ racing st) ∨ i ∈ executing st).
  { intros k i [[?|Hin]%elem_of_app|[?|Hin]%elem_of_app];
      [by left; left| |by left; right|].
    - right. apply list_elem_of_fmap in Hin as (j & [= <-] & Hin).
      by apply list_elem_of_filter in Hin as [_ ?].
    - right. apply list_elem_of_fmap in Hin as (j & [= <-] & Hin).
      by apply list_elem_of_filter in Hin as [_ ?]. }
  constructor; cbn; try done.
  - intros [Hin|Hin]%elem_of_app; [done|].
    apply list_elem_of_fmap in Hin as (j & [=] & _).
  - intros i Hi Hv. rewrite elem_of_app. left. by apply Hfin.
  - intros k i [[Hin|Hin]%elem_of_app|[Hin|Hin]%elem_of_app].
    + specialize (Hrc k i (or_introl Hin)). lia.
    + apply list_elem_of_fmap in Hin as (j & [= -> ->] & _). lia.
    + specialize (Hrc k i (or_intror Hin)). lia.
    + apply list_elem_of_fmap in Hin as (j & [= -> ->] & _). lia.
  - intros k [= <-]. lia.
  - intros k [= <-]. exists (executing st). repeat split; [done..|].
    intros i Hi. destruct (Hnew _ _ Hi) as [Hold|?]; [|done].
    apply Hrc in Hold. lia.
  - intros k q1 i q2 [= <-] Heq.
    apply split_app in Heq as [(r & Heq)|(p & -> & Heq)].
    + assert (Hin : JRace (A:=A) (races st) i ∈ queue st)
        by (rewrite Heq; set_solver).
      specialize (Hrc _ _ (or_introl Hin)). lia.
    + left. rewrite elem_of_app. left.
      assert (Hin : JRace (A:=A) (races st) i
                    ∈ JRace (races st)
                        <$> filter (λ j, is_Some (value st !! j))
                                   (executing st))
        by (rewrite Heq; set_solver).
      apply list_elem_of_fmap in Hin as (j & [= <-] & Hin).
      apply list_elem_of_filter in Hin as [? ?]. by apply Hfin.
  - intros i Hi. apply Hqd.
    destruct Hi as [[Hi|Hi]%elem_of_app|(s & [Hi|Hi]%elem_of_app)].
    + by left.
    + apply list_elem_of_fmap in Hi as (j & [=] & _).
    + right. by exists s.
    + apply list_elem_of_fmap in Hi as (j & [=] & _).
Qed.

Lemma not_full (st : State T A) :
  full concurrency st = false → (length (executing st) < cap)%nat.
Proof.
  intros Hnf. destruct (decide (cap ≤ length (executing st))%nat) as [Hle|];
    [|lia].
  apply Hfills in Hle. unfold full in Hnf. congruence.
Qed.

Lemma bounded_loop rest (st : State T A) :
  sound fn items rest st → running st →
  (length (executing st) < cap)%nat →
  bounded cap st → bounded cap (loop fn concurrency rest st).
Proof.
  revert st. induction rest as [|item rest IH]; intros st Hs Hrun Hlen Hb.
  - cbn [loop]. destruct Hb. by constructor.
  - cbn [loop]. pose proof (sound_fresh _ _ Hs) as Hfresh.
    pose proof (bounded_spawn item _ _ Hs Hrun Hlen Hb) as Hb'.
    apply (running_spawn item) in Hrun; [|done].
    apply sound_spawn in Hs.
    destruct (full concurrency _) eqn:Hfull.
    + by apply bounded_race.
    + apply IH; try done. by apply not_full.
Qed.


Lemma bounded_step (st st' : State T A) :
  sound fn items (todo st) st → parked st → bounded cap st →
  step fn concurrency st st' → bounded cap st'.
Proof.
  intros Hs Hp Hb Hstep. destruct Hstep as [j q st Hqueue | i s st Hfl].
  - destruct j as [i s|i|k i|]; cbn [run_job].
    + (* the continuation of [p i] *)
      destruct Hb as [Hnd Hfr Hcap Hres Hfin Hrc Hawt Hmem Hord Hinf Hqd].
      rewrite Hqueue in *.
      assert (Hreact : ∀ k i', JRace (A:=A) k i'
          ∈ JFinally i :: map (λ r, JRace r.2 i)
                              (filter (λ r, r.1 = i) (racing st)) →
          i' = i ∧ (i, k) ∈ racing st).
      { intros k i' [[=]|Hin]%elem_of_cons.
        apply list_elem_of_fmap in Hin as ([a b] & [= -> ->] & Hin).
        apply list_elem_of_filter in Hin as [Ha ?]. cbn in Ha. by subst. }
      assert (Hsub : ∀ r, r ∈ filter (λ r, r.1 ≠ i) (racing st) →
                          r ∈ racing st).
      { intros r Hr. by apply list_elem_of_filter in Hr as [_ ?]. }
      constructor; cbn in *; try done.
      * intros [Hin|Hin]%elem_of_app; [apply Hres; set_solver|].
        apply elem_of_cons in Hin as [[=]|Hin].
        apply list_elem_of_fmap in Hin as (r & [=] & _).
      * intros i' Hi' Hv. destruct (decide (i' = i)) as [->|Hne];
          [set_solver|].
        rewrite lookup_insert_ne in Hv by done.
        specialize (Hfin i' Hi' Hv). set_solver.
      * intros k i' [[Hin|Hin]%elem_of_app|Hin].
        -- apply (Hrc k i'). left. set_solver.
        -- apply Hreact in Hin as [-> Hin]. apply (Hrc k i). by right.
        -- apply (Hrc k i'). right. by apply Hsub.
      * intros k Hk. destruct (Hmem k Hk) as (R & HR & Hex & Hin).
        exists R. repeat split; [done..|].
        intros i' [[Hi'|Hi']%elem_of_app|Hi'].
        -- apply Hin. left. set_solver.
        -- apply Hreact in Hi' as [-> Hi']. apply Hin. by right.
        -- apply Hin. right. by apply Hsub.
      * intros k q1 i' q2 Hk Heq.
        apply split_app in Heq as [(r & ->)|(p & -> & Heq)].
        -- destruct (Hord k (JCont i s :: q1) i' r Hk) as [Hin|?];
             [done| |by right].
           left. set_solver.
        -- assert (Hin : JRace (A:=A) k i'
               ∈ JFinally i :: map (λ r, JRace r.2 i)
                                   (filter (λ r, r.1 = i) (racing st)))
             by (rewrite Heq; set_solver).
           apply Hreact in Hin as [-> _]. left.
           destruct p as [|x p]; [done|].
           injection Heq as -> _. set_solver.
      * intros i' Hi'. apply Hqd.
        destruct Hi' as [[Hi'|Hi']%elem_of_app|(s' & [Hi'|Hi']%elem_of_app)].
        -- left. set_solver.
        -- apply elem_of_cons in Hi' as [[= ->]|Hi'].
           ++ right. exists s. set_solver.
           ++ apply list_elem_of_fmap in Hi' as (r & [=] & _).
        -- right. exists s'. set_solver.
        -- apply elem_of_cons in Hi' as [[=]|Hi'].
           apply list_elem_of_fmap in Hi' as (r & [=] & _).
    + (* the [finally] callback of [p i] *)
      destruct Hb as [Hnd Hfr Hcap Hres Hfin Hrc Hawt Hmem Hord Hinf Hqd].
      rewrite Hqueue in *.
      assert (Hsub : ∀ j, j ∈ filter (λ j, j ≠ i) (executing st) →
                          j ∈ executing st ∧ j ≠ i).
      { intros j Hj. by apply list_elem_of_filter in Hj as [? ?]. }
      pose proof (length_filter (λ j, j ≠ i) (executing st)) as Hlen.
      constructor; cbn in *; try done.
      * by apply NoDup_filter.
      * intros j Hj. apply Hfr. by apply Hsub.
      * lia.
      * intros Hin. assert (length (executing st) < cap)%nat; [|lia].
        apply Hres. set_solver.
      * intros j Hj Hv. apply Hsub in Hj as [Hj Hne].
        specialize (Hfin j Hj Hv). set_solver.
      * intros k j Hin. apply (Hrc k j). set_solver.
      * intros k Hk. destruct (Hmem k Hk) as (R & HR & Hex & Hin).
        exists R. repeat split; [done| |].
        -- intros j Hj. apply Hex. by apply Hsub.
        -- intros j Hj. apply Hin. set_solver.
      * intros k q1 j q2 Hk ->.
        destruct (Hord k (JFinally i :: q1) j q2 Hk) as [Hin|Hnin]; [done| |].
        -- apply elem_of_cons in Hin as [[= ->]|Hin]; [|by left].
           right. intros Hj. by apply Hsub in Hj as [_ ?].
        -- right. intros Hj. by apply Hsub in Hj as [? _].
      * intros j Hj. apply list_elem_of_filter. split; [|by apply Hinf].
        intros ->. destruct (Hqd i) as [Hnone _]; [left; set_solver|].
        rewrite Hnone in Hj. by destruct Hj.
      * intros j Hj. apply Hqd. set_solver.
    + (* a reaction of the [k]-th race *)
      destruct Hb as [Hnd Hfr Hcap Hres Hfin Hrc Hawt Hmem Hord Hinf Hqd].
      rewrite Hqueue in *.
      case_decide as Haw; cbn in Haw.
      * constructor; cbn in *; try done.
        -- intros _.
           destruct (Hord k [] i q Haw) as [Hin|Hnin]; [done|set_solver|].
           destruct (Hmem k Haw) as (R & HR & Hex & Hin).
           assert (HiR : i ∈ R) by (apply Hin; left; set_solver).
           assert (Hsub : i :: executing st ⊆+ R).
           { apply NoDup_submseteq; [by apply NoDup_cons|].
             intros x [->|Hx]%elem_of_cons; [done | by apply Hex]. }
           apply submseteq_length in Hsub. cbn in Hsub. lia.
        -- intros j Hj Hv. specialize (Hfin j Hj Hv). set_solver.
        -- intros k' j [Hin|Hin]; apply (Hrc k' j); set_solver.
        -- intros j Hj. apply Hqd. set_solver.
      * constructor; cbn in *; try done.
        -- intros Hin. apply Hres. set_solver.
        -- intros j Hj Hv. specialize (Hfin j Hj Hv). set_solver.
        -- intros k' j Hin. apply (Hrc k' j). set_solver.
        -- intros k' Hk. destruct (Hmem k' Hk) as (R & HR & Hex & Hin).
           exists R. repeat split; [done..|].
           intros j Hj. apply Hin. set_solver.
        -- intros k' q1 j q2 Hk ->.
           destruct (Hord k' (JRace k i :: q1) j q2 Hk) as [Hin|?];
             [done| |by right].
           left. set_solver.
        -- intros j Hj. apply Hqd. set_solver.
    + (* the loop resumes *)
      pose proof (parked_pop_resume _ _ Hp Hqueue) as Hrun.
      apply (bounded_loop (todo st)).
      * destruct Hs as [? ? ? ? ? Hq]. constructor; cbn; try done.
        intros i s Hin. apply Hq. rewrite Hqueue. set_solver.
      * done.
      * cbn. apply (bd_resume _ _ Hb). rewrite Hqueue. set_solver.
      * destruct Hrun as (Haw & _ & _). cbn in Haw.
        destruct Hb as [Hnd Hfr Hcap Hres Hfin Hrc Hawt Hmem Hord Hinf Hqd].
        rewrite Hqueue in *.
        constructor; cbn in *; try done; try congruence.
        -- intros Hin. apply Hres. set_solver.
        -- intros j Hj Hv. specialize (Hfin j Hj Hv). set_solver.
        -- intros k' j Hin. apply (Hrc k' j). set_solver.
        -- intros j Hj. apply Hqd. set_solver.
  - (* a worker settles *)
    destruct Hb as [Hnd Hfr Hcap Hres Hfin Hrc Hawt Hmem Hord Hinf Hqd].
    constructor; cbn in *; try done.
    + intros Hin. apply Hres. set_solver.
    + intros j Hj Hv. specialize (Hfin j Hj Hv). set_solver.
    + intros k j Hin. apply (Hrc k j). set_solver.
    + intros k Hk. destruct (Hmem k Hk) as (R & HR & Hex & Hin).
      exists R. repeat split; [done..|].
      intros j Hj. apply Hin. set_solver.
    + intros k q1 j q2 Hk Heq.
      apply split_app in Heq as [(r & Heq)|(p & -> & Heq)].
      * by apply (Hord k q1 j r).
      * destruct p as [|x [|y p]]; discriminate.
    + intros j Hj. apply Hinf.
      destruct (decide (j = i)) as [->|Hne];
        [by rewrite Hfl | by rewrite lookup_delete_ne in Hj].
    + intros j Hj.
      destruct (decide (j = i)) as [->|Hne].
      * rewrite lookup_delete_eq. split; [done|].
        apply Hfr, Hinf. by rewrite Hfl.
      * rewrite lookup_delete_ne by done. apply Hqd.
        destruct Hj as [Hj|(s' & Hj)]; [left|right; exists s']; set_solver.
Qed.

Lemma bounded_empty : (1 ≤ cap)%nat → bounded cap (@empty T A).
Proof.
  intros Hpos. constructor; cbn; try done; try set_solver.
  - apply NoDup_nil_2.
  - lia.
  - intros i [x Hx]. by rewrite lookup_empty in Hx.
Qed.

Lemma reachable_bounded (st : State T A) :
  (1 ≤ cap)%nat →
  reachable fn concurrency items st → bounded cap st.
Proof.
  intros Hpos. induction 1 as [|st st' Hreach Hb Hstep].
  - apply (bounded_loop items).
    + apply sound_empty.
    + apply running_empty.
    + cbn. lia.
    + by apply bounded_empty.
  - destruct (reachable_inv _ Hreach) as (Hs & Hp & _).
    by eapply bounded_step.
Qed.

(** With a limit that [cap] promises fill, no more than [cap]
    workers are ever in flight. *)
Lemma in_flight_bound (st : State T A) :
  (1 ≤ cap)%nat →
  reachable fn concurrency items st → (in_flight st ≤ cap)%nat.
Proof.
  intros Hpos Hreach.
  destruct (reachable_bounded _ Hpos Hreach)
    as [Hnd _ Hcap _ _ _ _ _ _ Hinf _].
  unfold in_flight. rewrite <- size_dom.
  etrans; [|exact Hcap].
  rewrite <- (size_list_to_set (C:=gset nat)) by done.
  apply subseteq_size. intros i Hi. apply elem_of_list_to_set.
  apply Hinf. by apply elem_of_dom.
Qed.

End Bound.

End SchedFacts.

(** ** [POST /tcp/scan-range] *)

Lemma ports_loop_length n p : length (ports_loop n p) = n.
Proof. revert p. induction n as [|n IH]; intros p; cbn; [done | by rewrite IH]. Qed.

Lemma ports_loop_lookup n p i :
  (i < n)%nat → ports_loop n p !! i = Some (p + Z.of_nat i).
Proof.
  revert p i. induction n as [|n IH]; intros p i Hi; [lia|].
  destruct i as [|i]; cbn.
  - f_equal. lia.
  - rewrite IH by lia. f_equal. lia.
Qed.

(** The loop of line 162 builds the ascending sequence [p, p+1, ...]. *)
Lemma ports_loop_seq n p :
  ports_loop n p = map (fun i => p + Z.of_nat i) (seq 0 n).
Proof.
  apply list_eq. intros i. destruct (decide (i < n)%nat) as [Hi|Hi].
  - rewrite ports_loop_lookup by done.
    change (map ?f ?l) with (f <$> l). rewrite list_lookup_fmap.
    by rewrite lookup_seq_lt.
  - rewrite !lookup_ge_None_2; [done|..].
    + rewrite length_map, length_seq. lia.
    + rewrite ports_loop_length. lia.
Qed.

Lemma clamp_port_range v : 1 <= clamp_port v <= 65535.
Proof. unfold clamp_port. lia. Qed.

Lemma scan_min_max_range b :
  1 <= scan_min b /\ scan_min b <= scan_max b /\ scan_max b <= 65535.
Proof.
  unfold scan_min, scan_max.
  pose proof (clamp_port_range (Js.int_of (b_start b))).
  pose proof (clamp_port_range (Js.int_of (b_end b))). lia.
Qed.

(** A resolved probe reports the host and the port it was called with. *)
Lemma probe_reports host port evs r :
  promise (probe_run host port evs) = Some r →
  pr_host r = host /\ pr_port r = port.
Proof.
  destruct evs as [|ev later]; [done|]. rewrite probe_run_first.
  destruct ev as [| |err]; cbn [on_event];
    [| |destruct (refused err)]; by intros [= <-].
Qed.

(** What the worker of line 164 leaves in the array: the result of its
    port, or the exception of an executor that threw. *)
Lemma probe_worker_settles W host timeoutMs port v :
  Sched.settles (probe_worker W host timeoutMs port) = Some v →
  match v with
  | Sched.Value r => pr_host r = host /\ pr_port r = Js.of_Z port
  | Sched.ErrorObj e =>
      checkTcpPort W host (Js.of_Z port) timeoutMs = Rejects e
  end.
Proof.
  unfold probe_worker.
  destruct (checkTcpPort W host (Js.of_Z port) timeoutMs) as [e|p] eqn:Hc.
  - cbn. by intros [= <-].
  - unfold checkTcpPort in Hc.
    destruct (socket_setTimeout W timeoutMs); [discriminate|].
    destruct (socket_connect W (Js.of_Z port) host); [discriminate|].
    injection Hc as <-. cbn.
    destruct (promise _) as [r|] eqn:Hp; [|done].
    intros [= <-]. by eapply probe_reports.
Qed.

Lemma filter_probes host timeoutMs (ports : list Z) :
  List.filter is_probe
    (map (fun p => EvProbe host (Js.of_Z p) timeoutMs) ports)
  = map (fun p => EvProbe host (Js.of_Z p) timeoutMs) ports.
Proof. induction ports as [|p l IH]; [done|]. cbn. by rewrite IH. Qed.

(** The request passed lines 145-159: the shape of what follows. *)
Lemma scan_accepted W b tr body :
  tcp_scan_range W b = (tr, Sent 200 body) →
  scan_max b - scan_min b + 1 <= MAX_PORT_RANGE /\
  exists tr0 results,
    hostAllowedAsync W (b_host b) = (tr0, Returned true) /\
    tr = tr0 ++ map (fun p => EvProbe (b_host b) (Js.of_Z p) (scan_timeout W b))
                    (scan_ports b) /\
    Sched.mapWithConcurrency_value (scan_ports b)
      (probe_worker W (b_host b) (scan_timeout W b)) = Some results /\
    body = BScan (b_host b) (length results) results.
Proof.
  unfold tcp_scan_range.
  destruct (negb (Js.truthy (b_host b)) || _ || _); [done|].
  destruct (hostAllowedAsync W (b_host b)) as [tr0 [allowed|]]; [|done].
  destruct allowed; cbn [negb]; [|done].
  destruct (MAX_PORT_RANGE <? scan_max b - scan_min b + 1) eqn:Hcount; [done|].
  apply Z.ltb_ge in Hcount.
  destruct (Sched.mapWithConcurrency_value _ _) as [results|] eqn:Hres; [|done].
  intros [= <- <-]. split; [done|]. by exists tr0, results.
Qed.

Lemma scan_no_probe_unless_accepted W b :
  MAX_PORT_RANGE < scan_max b - scan_min b + 1 →
  List.filter is_probe (fst (tcp_scan_range W b)) = [] /\
  forall body, snd (tcp_scan_range W b) <> Sent 200 body.
Proof.
  intros Hcount. unfold tcp_scan_range.
  destruct (negb (Js.truthy (b_host b)) || _ || _); [by split|].
  pose proof (hostAllowedAsync_no_probe W (b_host b)) as Hnp.
  destruct (hostAllowedAsync W (b_host b)) as [tr0 [allowed|]]; [|by split].
  destruct allowed; cbn [negb]; [|by split].
  apply Z.ltb_lt in Hcount. rewrite Hcount. by split.
Qed.

(** C1, as amended.  A request whose [start] and [end] are both 65535 or
    more, such as 70000 and 80000, is not rejected for its range: both
    are clamped to 65535, the range is the single port 65535, and for a
    host the Authorizer accepts that port is probed and its result sent
    with status 200.  In general, whenever [count = max - min + 1]
    exceeds 200 no probe is made and no scan result is sent; a request
    that passed the field check and the Authorizer is answered 400,
    "range too large". *)
Theorem scan_range_limits (W : World) (b : ScanBody) :
  (65535 <= Js.int_of (b_start b) -> 65535 <= Js.int_of (b_end b) ->
   scan_ports b = [65535] /\ scan_max b - scan_min b + 1 = 1 /\
   forall tr,
     Js.truthy (b_host b) = true ->
     Js.isInteger (b_start b) = true -> Js.isInteger (b_end b) = true ->
     hostAllowedAsync W (b_host b) = (tr, Returned true) ->
     tcp_scan_range W b
     = (tr ++ [EvProbe (b_host b) (Js.of_Z 65535) (scan_timeout W b)],
        match Sched.settles
                (probe_worker W (b_host b) (scan_timeout W b) 65535) with
        | Some v => Sent 200 (BScan (b_host b) 1 [v])
        | None => Pending
        end)) /\
  (MAX_PORT_RANGE < scan_max b - scan_min b + 1 ->
   List.filter is_probe (fst (tcp_scan_range W b)) = [] /\
   (forall body, snd (tcp_scan_range W b) <> Sent 200 body) /\
   (forall tr,
      Js.truthy (b_host b) = true ->
      Js.isInteger (b_start b) = true -> Js.isInteger (b_end b) = true ->
      hostAllowedAsync W (b_host b) = (tr, Returned true) ->
      tcp_scan_range W b
      = (tr, Sent 400
               (BError ("range too large ("
                        ++ show_Z (scan_max b - scan_min b + 1)
                        ++ " ports); max allowed 200")%string)))).
Proof.
  split.
  - intros Hs He.
    assert (Hports : scan_ports b = [65535]).
    { unfold scan_ports, ports_between, scan_max, scan_min, clamp_port.
      rewrite !(Z.min_l 65535) by done. cbn. done. }
    assert (Hcount : scan_max b - scan_min b + 1 = 1).
    { unfold scan_max, scan_min, clamp_port.
      rewrite !(Z.min_l 65535) by done. cbn. done. }
    repeat split; [done..|].
    intros tr Hhost Hstart Hend Hallowed. unfold tcp_scan_range.
    rewrite Hhost, Hstart, Hend, Hallowed. cbn [negb orb].
    rewrite Hcount, Hports. cbn [Z.ltb Z.compare MAX_PORT_RANGE map].
    unfold Sched.mapWithConcurrency_value. cbn [mapM].
    destruct (Sched.settles _) as [v|]; reflexivity.
  - intros Hcount.
    destruct (scan_no_probe_unless_accepted W b Hcount) as [Hnp H200].
    repeat split; [done..|].
    intros tr Hhost Hstart Hend Hallowed. unfold tcp_scan_range.
    rewrite Hhost, Hstart, Hend, Hallowed. cbn [negb orb].
    apply Z.ltb_lt in Hcount. by rewrite Hcount.
Qed.

Lemma scan_range_limits_witness :
  tcp_scan_range Lab.default
    {| b_host := VStr "127.0.0.1"; b_start := VNum (Js.of_Z 70000);
       b_end := VNum (Js.of_Z 80000); b_timeout := VUndef;
       b_concurrency := VUndef |}
  = ([] ++ [EvProbe (VStr "127.0.0.1") (Js.of_Z 65535)
              (scan_timeout Lab.default
                 {| b_host := VStr "127.0.0.1";
                    b_start := VNum (Js.of_Z 70000);
                    b_end := VNum (Js.of_Z 80000); b_timeout := VUndef;
                    b_concurrency := VUndef |})],
     match Sched.settles
             (probe_worker Lab.default (VStr "127.0.0.1")
                (scan_timeout Lab.default
                   {| b_host := VStr "127.0.0.1";
                      b_start := VNum (Js.of_Z 70000);
                      b_end := VNum (Js.of_Z 80000); b_timeout := VUndef;
                      b_concurrency := VUndef |}) 65535) with
     | Some v => Sent 200 (BScan (VStr "127.0.0.1") 1 [v])
     | None => Pending
     end) /\
  tcp_scan_range Lab.default
    {| b_host := VStr "127.0.0.1"; b_start := VNum (Js.of_Z 1);
       b_end := VNum (Js.of_Z 300); b_timeout := VUndef;
       b_concurrency := VUndef |}
  = ([], Sent 400 (BError "range too large (300 ports); max allowed 200")).
Proof.
  split.
  - apply (scan_range_limits Lab.default
             {| b_host := VStr "127.0.0.1"; b_start := VNum (Js.of_Z 70000);
                b_end := VNum (Js.of_Z 80000); b_timeout := VUndef;
                b_concurrency := VUndef |});
      try (vm_compute; discriminate); vm_compute; reflexivity.
  - apply (scan_range_limits Lab.default
             {| b_host := VStr "127.0.0.1"; b_start := VNum (Js.of_Z 1);
                b_end := VNum (Js.of_Z 300); b_timeout := VUndef;
                b_concurrency := VUndef |}); vm_compute; reflexivity.
Defined.

(** C1 fails as stated: with [start = 70000] and [end = 80000] on an
    authorized host the request is accepted and port 65535 is probed. *)
Lemma scan_70000_80000_is_accepted :
  tcp_scan_range Lab.default
    {| b_host := VStr "127.0.0.1"; b_start := VNum (Js.of_Z 70000);
       b_end := VNum (Js.of_Z 80000); b_timeout := VUndef;
       b_concurrency := VUndef |}
  = ([EvProbe (VStr "127.0.0.1") (Js.of_Z 65535) (Js.of_Z 2000)],
     Sent 200
       (BScan (VStr "127.0.0.1") 1
          [Sched.Value {| pr_host := VStr "127.0.0.1";
                          pr_port := Js.of_Z 65535;
                          pr_status := open;
                          pr_error := None |}])).
Proof. vm_compute. reflexivity. Qed.

(** C6.  For every accepted range scan: the bounds are [start] and
    [end] ordered and clamped into [1, 65535]; the ports probed are
    exactly [min, min + 1, ..., max] in this order; [scanned_count] is
    [max - min + 1]; entry [i] of the results is what the worker for
    port [min + i] settled with, either the probe result for that port
    and host or, when the probe rejected, the rendering of its
    exception; and this array is what the scheduler resolves with under
    every order in which the probes complete, which it does reach. *)
Theorem scan_results_in_port_order (W : World) (b : ScanBody)
    (tr : list Event) (body : Body) :
  tcp_scan_range W b = (tr, Sent 200 body) ->
  let s := Js.int_of (b_start b) in
  let e := Js.int_of (b_end b) in
  let lo := Z.max 1 (Z.min 65535 (Z.min s e)) in
  let hi := Z.max 1 (Z.min 65535 (Z.max s e)) in
  let count := Z.to_nat (hi - lo + 1) in
  let worker := probe_worker W (b_host b) (scan_timeout W b) in
  Js.isInteger (b_start b) = true /\ Js.isInteger (b_end b) = true /\
  1 <= lo /\ lo <= hi /\ hi <= 65535 /\ hi - lo + 1 <= 200 /\
  scan_ports b = map (fun i => lo + Z.of_nat i) (seq 0 count) /\
  List.filter is_probe tr
  = map (fun i => EvProbe (b_host b) (Js.of_Z (lo + Z.of_nat i))
                    (scan_timeout W b))
        (seq 0 count) /\
  exists results,
    body = BScan (b_host b) count results /\
    length results = count /\
    (forall i, (i < count)%nat ->
       exists v,
         results !! i = Some v /\
         Sched.settles (worker (lo + Z.of_nat i)) = Some v /\
         match v with
         | Sched.Value r =>
             pr_port r = Js.of_Z (lo + Z.of_nat i) /\ pr_host r = b_host b
         | Sched.ErrorObj e =>
             checkTcpPort W (b_host b) (Js.of_Z (lo + Z.of_nat i))
               (scan_timeout W b) = Rejects e
         end) /\
    (forall st rs,
       Sched.reachable worker (scan_limit W b) (scan_ports b) st ->
       Sched.outcome st = Some rs -> rs = results) /\
    (exists n,
       Sched.outcome (Sched.run worker (scan_limit W b) n (scan_call W b))
       = Some results).
Proof.
  intros Hresp s e lo hi count worker.
  assert (Hints : Js.isInteger (b_start b) = true /\
                  Js.isInteger (b_end b) = true).
  { unfold tcp_scan_range in Hresp.
    destruct (Js.isInteger (b_start b)), (Js.isInteger (b_end b));
      try done; by rewrite ?orb_true_r in Hresp. }
  destruct (scan_accepted W b tr body Hresp)
    as (Hcount & tr0 & results & Hauth & -> & Hval & ->).
  assert (Hlo : scan_min b = lo) by (unfold scan_min, clamp_port; lia).
  assert (Hhi : scan_max b = hi) by (unfold scan_max, clamp_port; lia).
  pose proof (scan_min_max_range b) as (H1 & H2 & H3).
  rewrite Hlo, Hhi in *. unfold MAX_PORT_RANGE in Hcount.
  assert (Hports : scan_ports b
                   = map (fun i => lo + Z.of_nat i) (seq 0 count)).
  { unfold scan_ports, ports_between. rewrite Hlo, Hhi. apply ports_loop_seq. }
  assert (Hlen : length results = count).
  { apply length_mapM in Hval. rewrite <- Hval, Hports.
    by rewrite length_map, length_seq. }
  destruct Hints as [? ?]. repeat split; try done.
  - rewrite List.filter_app.
    pose proof (hostAllowedAsync_no_probe W (b_host b)) as Hnp.
    rewrite Hauth in Hnp. cbn in Hnp. rewrite Hnp, filter_probes. cbn.
    by rewrite Hports, List.map_map.
  - exists results. rewrite Hlen. repeat split; try done.
    + intros i Hi. apply mapM_Some_1 in Hval.
      assert (Hp : scan_ports b !! i = Some (lo + Z.of_nat i)).
      { rewrite Hports. change (map ?f ?l) with (f <$> l).
        rewrite list_lookup_fmap. by rewrite lookup_seq_lt. }
      destruct (Forall2_lookup_l _ _ _ _ _ Hval Hp) as (v & Hv & Hset).
      exists v. repeat split; [done..|].
      pose proof (probe_worker_settles _ _ _ _ _ Hset) as Hshape.
      destruct v as [r|err]; [|exact Hshape].
      by destruct Hshape.
    + intros st rs Hreach Hout.
      pose proof (correct _ _ _ _ _ Hreach Hout) as Hsame.
      subst worker. rewrite Hval in Hsame. by injection Hsame.
    + apply run_completes. exact Hval.
Qed.

Lemma scan_results_in_port_order_witness :
  exists results,
    results = [Sched.Value {| pr_host := VStr "127.0.0.1";
                              pr_port := Js.of_Z 79;
                              pr_status := open; pr_error := None |};
               Sched.Value {| pr_host := VStr "127.0.0.1";
                              pr_port := Js.of_Z 80;
                              pr_status := open; pr_error := None |}] /\
    forall st rs,
      Sched.reachable
        (probe_worker Lab.default (VStr "127.0.0.1") (Js.of_Z 2000))
        (Js.of_Z 20) [79; 80] st ->
      Sched.outcome st = Some rs -> rs = results.
Proof.
  destruct (scan_results_in_port_order Lab.default
              {| b_host := VStr "127.0.0.1"; b_start := VNum (Js.of_Z 80);
                 b_end := VNum (Js.of_Z 79); b_timeout := VUndef;
                 b_concurrency := VUndef |}
              [EvProbe (VStr "127.0.0.1") (Js.of_Z 79) (Js.of_Z 2000);
               EvProbe (VStr "127.0.0.1") (Js.of_Z 80) (Js.of_Z 2000)]
              (BScan (VStr "127.0.0.1") 2
                 [Sched.Value {| pr_host := VStr "127.0.0.1";
                                 pr_port := Js.of_Z 79;
                                 pr_status := open; pr_error := None |};
                  Sched.Value {| pr_host := VStr "127.0.0.1";
                                 pr_port := Js.of_Z 80;
                                 pr_status := open; pr_error := None |}]))
    as (_ & _ & _ & _ & _ & _ & _ & _ & results & Hbody & _ & _ & Hany & _).
  - vm_compute. reflexivity.
  - injection Hbody as <-. eexists. split; [reflexivity|]. exact Hany.
Defined.

(** With the timeout -1 the scan is still accepted: every probe rejects
    and the array holds the renderings of the exceptions, in port
    order. *)
Lemma scan_with_rejecting_probes :
  tcp_scan_range Lab.default
    {| b_host := VStr "127.0.0.1"; b_start := VNum (Js.of_Z 79);
       b_end := VNum (Js.of_Z 80); b_timeout := VNum (Js.of_Z (-1));
       b_concurrency := VUndef |}
  = ([EvProbe (VStr "127.0.0.1") (Js.of_Z 79) (Js.of_Z (-1));
      EvProbe (VStr "127.0.0.1") (Js.of_Z 80) (Js.of_Z (-1))],
     Sent 200
       (BScan (VStr "127.0.0.1") 2
          [Sched.ErrorObj "RangeError [ERR_OUT_OF_RANGE]";
           Sched.ErrorObj "RangeError [ERR_OUT_OF_RANGE]"])).
Proof. vm_compute. reflexivity. Qed.

(** ** The scheduler's limit and its failures *)

Lemma whole_value (q : Q) :
  Js.whole q = true -> (q == inject_Z (Qnum q / Zpos (Qden q)))%Q.
Proof.
  unfold Js.whole. intros Hw. apply Z.eqb_eq in Hw.
  unfold Qeq, inject_Z. cbn.
  rewrite Z.mul_1_r, Z.mul_comm. by apply Z_div_exact_full_2.
Qed.

Lemma fills_integer (limit : Q) :
  Js.whole limit = true ->
  Sched.fills (Fin limit) (Z.to_nat (Qnum limit / Zpos (Qden limit))).
Proof.
  intros Hw n Hn. unfold Js.ge, Js.of_Z.
  apply Qle_bool_iff. rewrite (whole_value limit Hw) at 1.
  rewrite <- Zle_Qle. lia.
Qed.

(** C5, as amended.  When the limit is an integer and at least 1, at
    every point of [mapWithConcurrency] the number of workers that were
    started and have not settled is at most the limit. *)
Theorem in_flight_within_integer_limit {T A : Type}
    (fn : T -> Sched.Behaviour A) (items : list T) (limit : Q)
    (st : Sched.State T A) :
  Js.whole limit = true ->
  (1 <= limit)%Q ->
  Sched.reachable fn (Fin limit) items st ->
  (inject_Z (Z.of_nat (Sched.in_flight st)) <= limit)%Q.
Proof.
  intros Hw Hpos Hreach.
  pose proof (whole_value limit Hw) as Hval.
  set (c := Qnum limit / Zpos (Qden limit)) in *.
  assert (Hc : 1 <= c).
  { rewrite Hval in Hpos. rewrite Zle_Qle. exact Hpos. }
  assert (Hb : (Sched.in_flight st <= Z.to_nat c)%nat).
  { apply (in_flight_bound fn (Fin limit) items (Z.to_nat c)
             (fills_integer limit Hw) st); [lia | done]. }
  rewrite Hval, <- Zle_Qle. lia.
Qed.

Lemma in_flight_within_integer_limit_witness :
  (inject_Z (Z.of_nat
     (Sched.in_flight
        (Sched.mapWithConcurrency Lab.flaky (Fin 2) [1; 3; 5; 7]%Z)))
   <= 2)%Q.
Proof.
  apply (in_flight_within_integer_limit Lab.flaky [1; 3; 5; 7] 2%Q).
  - reflexivity.
  - discriminate.
  - apply Sched.reach_call.
Defined.

(** C5 fails as stated: the body [{ concurrency: 1.5 }] passes line 160
    unchanged, and with the limit 1.5 the call starts two probes before
    it first waits.  Likewise a call with the limit 0 starts one
    worker. *)
Lemma scan_fractional_limit_exceeded :
  scan_limit Lab.default
    {| b_host := VStr "127.0.0.1"; b_start := VNum (Js.of_Z 1);
       b_end := VNum (Js.of_Z 2); b_timeout := VUndef;
       b_concurrency := VNum (Fin (3 # 2)) |} = Fin (3 # 2) /\
  Sched.in_flight
    (scan_call Lab.default
       {| b_host := VStr "127.0.0.1"; b_start := VNum (Js.of_Z 1);
          b_end := VNum (Js.of_Z 2); b_timeout := VUndef;
          b_concurrency := VNum (Fin (3 # 2)) |}) = 2%nat /\
  Js.lt (Fin (3 # 2)) (Js.of_Z 2) = true /\
  Sched.in_flight (Sched.mapWithConcurrency Lab.flaky (Js.of_Z 0) [1])
  = 1%nat.
Proof. vm_compute. by repeat split. Qed.

(** C8.  When every worker settles, by fulfilling, rejecting or
    throwing, the call resolves, under every schedule with the same
    array: one entry per item, [{ error }] with the error's rendering
    for an item whose worker threw or rejected, and the worker's own
    value for every other item.  The array is reached: the batch is not
    abandoned because of a failing item. *)
Theorem failing_worker_is_contained {T A : Type}
    (fn : T -> Sched.Behaviour A) (concurrency : JsNum) (items : list T) :
  (forall x, In x items -> fn x <> Sched.Deferred None) ->
  exists rs,
    (exists n,
       Sched.outcome
         (Sched.run fn concurrency n
            (Sched.mapWithConcurrency fn concurrency items)) = Some rs) /\
    (forall st rs',
       Sched.reachable fn concurrency items st ->
       Sched.outcome st = Some rs' -> rs' = rs) /\
    length rs = length items /\
    forall i x,
      items !! i = Some x ->
      match fn x with
      | Sched.Throws e
      | Sched.Immediate (Sched.Rejected e)
      | Sched.Deferred (Some (Sched.Rejected e)) =>
          rs !! i = Some (Sched.ErrorObj e)
      | Sched.Immediate (Sched.Fulfilled a)
      | Sched.Deferred (Some (Sched.Fulfilled a)) =>
          rs !! i = Some (Sched.Value a)
      | Sched.Deferred None => False
      end.
Proof.
  intros Hall.
  assert (Hsome : is_Some (Sched.mapWithConcurrency_value items fn)).
  { apply mapM_is_Some_2, Forall_forall. intros x Hx.
    apply list_elem_of_In in Hx. specialize (Hall x Hx). cbn.
    destruct (fn x) as [e|s|[s|]]; cbn; by eauto. }
  destruct Hsome as [rs Hval]. exists rs. repeat split.
  - by apply run_completes.
  - intros st rs' Hreach Hout.
    pose proof (correct _ _ _ _ _ Hreach Hout). congruence.
  - symmetry. by eapply length_mapM.
  - intros i x Hx. apply mapM_Some_1 in Hval.
    destruct (Forall2_lookup_l _ _ _ _ _ Hval Hx) as (v & Hv & Hset).
    assert (Hin : In x items)
      by (apply list_elem_of_In; by eapply list_elem_of_lookup_2).
    specialize (Hall x Hin).
    destruct (fn x) as [e|[a|e]|[[a|e]|]]; cbn in Hset; try done;
      by injection Hset as <-.
Qed.

Lemma failing_worker_is_contained_witness :
  exists rs,
    (exists n,
       Sched.outcome
         (Sched.run Lab.flaky (Js.of_Z 2) n
            (Sched.mapWithConcurrency Lab.flaky (Js.of_Z 2) [1; 2; 3; 4; 6]))
       = Some rs) /\
    rs !! 1%nat = Some (Sched.ErrorObj "Error: two") /\
    rs !! 2%nat = Some (Sched.Value 30).
Proof.
  destruct (failing_worker_is_contained Lab.flaky (Js.of_Z 2) [1; 2; 3; 4; 6])
    as (rs & Hrun & _ & _ & Hitems).
  - intros x Hx. cbn in Hx.
    destruct Hx as [<-|[<-|[<-|[<-|[<-|[]]]]]]; discriminate.
  - exists rs. split; [exact Hrun|]. split.
    + exact (Hitems 1%nat 2 eq_refl).
    + exact (Hitems 2%nat 3 eq_refl).
Defined.

(** * Further properties *)

(** ** Strings *)

Lemma all_space_trim_end s :
  Js.all_space s = false -> Js.all_space (Js.trim_end s) = false.
Proof.
  induction s as [|c r IH]; [done|]. intros Hs.
  cbn [Js.trim_end]. rewrite Hs. cbn in *.
  destruct (Js.is_space c); [|done]. cbn in *. by apply IH.
Qed.

Lemma trim_end_idempotent s : Js.trim_end (Js.trim_end s) = Js.trim_end s.
Proof.
  induction s as [|c r IH]; [done|].
  cbn [Js.trim_end]. destruct (Js.all_space (String c r)) eqn:Hs; [done|].
  cbn [Js.trim_end].
  assert (Hs' : Js.all_space (String c (Js.trim_end r)) = false).
  { cbn in *. destruct (Js.is_space c); [|done]. cbn in *.
    by apply all_space_trim_end. }
  rewrite Hs'. by rewrite IH.
Qed.

Lemma trim_start_clean s : starts_clean (Js.trim_start s).
Proof.
  induction s as [|c r IH]; [done|]. cbn [Js.trim_start].
  destruct (Js.is_space c) eqn:Hc; [exact IH | exact Hc].
Qed.

Lemma trim_start_of_clean s : starts_clean s -> Js.trim_start s = s.
Proof. destruct s as [|c r]; [done|]. cbn. by intros ->. Qed.

Lemma trim_end_clean s : starts_clean s -> starts_clean (Js.trim_end s).
Proof.
  destruct s as [|c r]; [done|]. cbn [starts_clean Js.trim_end]. intros Hc.
  cbn [Js.all_space]. by rewrite Hc.
Qed.

(** [trim] is idempotent. *)
Lemma trim_idempotent s : Js.trim (Js.trim s) = Js.trim s.
Proof.
  unfold Js.trim.
  rewrite (trim_start_of_clean (Js.trim_end (Js.trim_start s))).
  - apply trim_end_idempotent.
  - apply trim_end_clean, trim_start_clean.
Qed.

Lemma split_without c s : Js.includes c s = false -> Js.split c s = [s].
Proof.
  induction s as [|d r IH]; [done|]. cbn [Js.split Js.includes].
  destruct (Ascii.eqb c d); [done|]. cbn [orb]. intros Hr. by rewrite IH.
Qed.

Lemma split_first c x y :
  Js.includes c x = false ->
  Js.split c (x ++ String c y) = x :: Js.split c y.
Proof.
  induction x as [|d r IH].
  - intros _. change (Js.split c (String c y) = "" :: Js.split c y).
    cbn [Js.split]. by rewrite Ascii.eqb_refl.
  - change (String d r ++ String c y)%string
      with (String d (r ++ String c y)%string).
    cbn [Js.split Js.includes].
    destruct (Ascii.eqb c d); [done|]. cbn [orb]. intros Hr. by rewrite IH.
Qed.

Lemma join_with_cons c x y rest :
  join_with (String c EmptyString) (x :: y :: rest)
  = (x ++ String c (join_with (String c EmptyString) (y :: rest)))%string.
Proof. reflexivity. Qed.

Lemma split_join c rules :
  rules <> [] ->
  Forall (fun r => Js.includes c r = false) rules ->
  Js.split c (join_with (String c EmptyString) rules) = rules.
Proof.
  induction rules as [|x rest IH]; [done|]. intros _ Hall.
  apply Forall_cons in Hall as [Hx Hrest].
  destruct rest as [|y rest].
  - cbn. by apply split_without.
  - rewrite join_with_cons. rewrite split_first by done. f_equal. by apply IH.
Qed.

Lemma all_digits_colon r d : Js.all_digits (r ++ String ":" d) = false.
Proof.
  induction r as [|c r IH]; [done|].
  change (String c r ++ String ":" d)%string
    with (String c (r ++ String ":" d)%string).
  cbn [Js.all_digits]. rewrite IH. apply andb_false_r.
Qed.

Lemma strip_port_suffix h d :
  Js.nonempty d = true -> Js.all_digits d = true ->
  Js.strip_port (h ++ String ":" d) = h.
Proof.
  intros Hne Hd. induction h as [|c r IH].
  - change (Js.strip_port (String ":" d) = ""). cbn [Js.strip_port].
    by rewrite Ascii.eqb_refl, Hne, Hd.
  - change (String c r ++ String ":" d)%string
      with (String c (r ++ String ":" d)%string).
    cbn [Js.strip_port]. rewrite all_digits_colon, andb_false_r. by rewrite IH.
Qed.

Lemma strip_port_shape s :
  Js.strip_port s = s \/
  exists d, Js.nonempty d = true /\ Js.all_digits d = true /\
            s = (Js.strip_port s ++ String ":" d)%string.
Proof.
  induction s as [|c r IH]; [by left|]. cbn [Js.strip_port].
  destruct (Ascii.eqb c ":" && Js.nonempty r && Js.all_digits r) eqn:Hm.
  - right. apply andb_true_iff in Hm as [[Hc Hne]%andb_true_iff Hd].
    apply Ascii.eqb_eq in Hc as ->. by exists r.
  - destruct IH as [->|(d & Hne & Hd & Heq)]; [by left|].
    right. exists d. repeat split; [done..|].
    change (String c (Js.strip_port r) ++ String ":" d)%string
      with (String c (Js.strip_port r ++ String ":" d)%string).
    by rewrite <- Heq.
Qed.

(** X1.  [host.replace(/:\d+$/, "")] removes a trailing colon with its
    digits and nothing else: a string that ends in a colon and one or
    more digits loses exactly that suffix, and every result is either
    the string itself or the string without such a suffix. *)
Theorem strip_port_removes_the_port_only (s : string) :
  (forall h d, Js.nonempty d = true -> Js.all_digits d = true ->
               s = (h ++ String ":" d)%string -> Js.strip_port s = h) /\
  (Js.strip_port s = s \/
   exists d, Js.nonempty d = true /\ Js.all_digits d = true /\
             s = (Js.strip_port s ++ String ":" d)%string).
Proof.
  split.
  - intros h d Hne Hd ->. by apply strip_port_suffix.
  - apply strip_port_shape.
Qed.

(** ** The allowlist text (line 20) *)

Lemma includes_trim_start c s :
  Js.includes c s = false -> Js.includes c (Js.trim_start s) = false.
Proof.
  induction s as [|d r IH]; [done|]. cbn [Js.trim_start Js.includes].
  intros [Hd Hr]%orb_false_elim.
  destruct (Js.is_space d); [by apply IH|].
  cbn [Js.includes]. by rewrite Hd, Hr.
Qed.

Lemma includes_trim_end c s :
  Js.includes c s = false -> Js.includes c (Js.trim_end s) = false.
Proof.
  induction s as [|d r IH]; [done|]. cbn [Js.trim_end Js.includes].
  intros [Hd Hr]%orb_false_elim.
  destruct (Js.all_space (String d r)); [done|].
  cbn [Js.includes]. by rewrite Hd, IH.
Qed.

Lemma split_parts_without c s :
  Forall (fun part => Js.includes c part = false) (Js.split c s).
Proof.
  induction s as [|d r IH]; cbn [Js.split].
  - by constructor.
  - destruct (Ascii.eqb c d) eqn:Hd.
    + by constructor.
    + destruct (Js.split c r) as [|w ws].
      * constructor; [|done]. cbn [Js.includes]. by rewrite Hd.
      * apply Forall_cons in IH as [Hw Hws].
        constructor; [|done]. cbn [Js.includes]. by rewrite Hd, Hw.
Qed.

(** X2.  Every rule of the allowlist, whatever the environment holds, is
    non-empty, has no white space at either end and contains no comma. *)
Theorem allowlist_rules_are_clean (env : option string) (rule : string) :
  In rule (allowlist_of_env env) ->
  rule <> EmptyString /\ Js.trim rule = rule /\
  Js.includes "," rule = false.
Proof.
  unfold allowlist_of_env, parse_allowlist.
  intros [Hin Hne]%List.filter_In.
  apply List.in_map_iff in Hin as (part & <- & Hpart).
  repeat split.
  - intros Heq. by rewrite Heq in Hne.
  - apply trim_idempotent.
  - apply includes_trim_end, includes_trim_start.
    pose proof (split_parts_without "," (param_or env DEFAULT_ALLOWLIST_TEXT))
      as Hall.
    rewrite Forall_forall in Hall. apply Hall. by apply list_elem_of_In.
Qed.

Lemma allowlist_rules_are_clean_witness :
  "10.0.0.0/8" <> EmptyString /\ Js.trim "10.0.0.0/8" = "10.0.0.0/8" /\
  Js.includes "," "10.0.0.0/8" = false.
Proof.
  apply (allowlist_rules_are_clean (Some " 10.0.0.0/8 ,,localhost")).
  vm_compute. by left.
Defined.

Lemma join_nonempty sep x rest :
  Js.nonempty x = true -> Js.nonempty (join_with sep (x :: rest)) = true.
Proof. destruct x as [|c r]; [done|]. intros _. by destruct rest. Qed.

(** X3.  Writing clean rules separated by commas into [ALLOWLIST] gives
    back exactly these rules, in order. *)
Theorem allowlist_round_trip (rules : list string) :
  rules <> [] ->
  (forall rule, In rule rules ->
     rule <> EmptyString /\ Js.trim rule = rule /\
     Js.includes "," rule = false) ->
  allowlist_of_env (Some (join_with "," rules)) = rules.
Proof.
  intros Hne Hclean. unfold allowlist_of_env, parse_allowlist, param_or.
  assert (Hjoin : Js.nonempty (join_with "," rules) = true).
  { destruct rules as [|x rest]; [done|]. apply join_nonempty.
    destruct (Hclean x) as [Hx _]; [by left|]. by destruct x. }
  rewrite Hjoin, split_join; [|done|].
  - clear Hne Hjoin. induction rules as [|x rest IH]; [done|].
    destruct (Hclean x) as (Hx & Ht & _); [by left|].
    cbn [List.map List.filter]. rewrite Ht.
    destruct x as [|c r]; [done|]. cbn [Js.nonempty]. f_equal.
    apply IH. intros rule Hin. apply Hclean. by right.
  - apply Forall_forall. intros rule Hin. apply list_elem_of_In in Hin.
    by apply Hclean.
Qed.

Lemma allowlist_round_trip_witness :
  allowlist_of_env (Some (join_with "," ["192.168.1.0/24"; "printer.lan"]))
  = ["192.168.1.0/24"; "printer.lan"].
Proof.
  apply allowlist_round_trip; [done|].
  intros rule [<-|[<-|[]]]; vm_compute; by repeat split.
Defined.

Lemma trim_start_all_space s : Js.all_space s = true -> Js.trim_start s = "".
Proof.
  induction s as [|c r IH]; [done|]. cbn.
  intros [Hc Hr]%andb_true_iff. rewrite Hc. by apply IH.
Qed.

Lemma split_all_blank s :
  all_blank s = true ->
  Forall (fun part => Js.all_space part = true) (Js.split "," s).
Proof.
  induction s as [|d r IH]; cbn [Js.split all_blank].
  - intros _. by constructor.
  - intros [Hd Hr]%andb_true_iff. specialize (IH Hr).
    destruct (Ascii.eqb "," d) eqn:Hc.
    + by constructor.
    + assert (Hsp : Js.is_space d = true).
      { unfold is_blank in Hd. apply orb_true_iff in Hd as [?|Hd]; [done|].
        rewrite Ascii.eqb_sym in Hc. congruence. }
      destruct (Js.split "," r) as [|w ws].
      * constructor; [|done]. cbn. by rewrite Hsp.
      * apply Forall_cons in IH as [Hw Hws].
        constructor; [|done]. cbn [Js.all_space]. by rewrite Hsp, Hw.
Qed.

(** X4.  An [ALLOWLIST] variable that is set but holds only white space
    and commas gives the empty allowlist, not the default one. *)
Theorem blank_allowlist_is_empty (text : string) :
  text <> EmptyString -> all_blank text = true ->
  allowlist_of_env (Some text) = [].
Proof.
  intros Hne Hblank. unfold allowlist_of_env, parse_allowlist, param_or.
  destruct text as [|c r]; [done|]. cbn [Js.nonempty].
  pose proof (split_all_blank _ Hblank) as Hparts.
  induction (Js.split "," (String c r)) as [|part parts IH]; [done|].
  apply Forall_cons in Hparts as [Hpart Hparts].
  cbn [List.map List.filter]. unfold Js.trim at 1.
  rewrite (trim_start_all_space _ Hpart). cbn [Js.trim_end Js.nonempty].
  by apply IH.
Qed.

Lemma blank_allowlist_is_empty_witness : allowlist_of_env (Some " , ,") = [].
Proof. apply blank_allowlist_is_empty; [done | reflexivity]. Defined.

(** ** The authorizer (lines 35-81) *)

Lemma existsb_same_elements {X} (f : X -> bool) (l l' : list X) :
  (forall x, In x l -> In x l') ->
  existsb f l = true -> existsb f l' = true.
Proof.
  intros Hsub. rewrite !existsb_exists. intros (x & Hin & Hf).
  exists x. split; [by apply Hsub | done].
Qed.

Lemma resolved_loop_with W rules trimmed addresses :
  resolved_loop (with_allowlist W rules) trimmed addresses
  = existsb (fun addr => existsb (rule_matches W trimmed addr) rules)
            addresses.
Proof. apply (resolved_loop_existsb (with_allowlist W rules)). Qed.

Lemma literal_loop_with W rules trimmed :
  literal_loop (with_allowlist W rules) trimmed rules
  = existsb (rule_matches W trimmed trimmed) rules.
Proof. apply (literal_loop_existsb (with_allowlist W rules)). Qed.

(** X5.  Adding rules to the allowlist never revokes a host: whatever is
    authorized with the rules [l] is authorized, with the same look-ups,
    with any allowlist that contains them. *)
Theorem allowlist_monotone (W : World) (l l' : list string) (host : JsVal)
    (tr : list Event) :
  (forall rule, In rule l -> In rule l') ->
  hostAllowedAsync (with_allowlist W l) host = (tr, Returned true) ->
  hostAllowedAsync (with_allowlist W l') host = (tr, Returned true).
Proof.
  intros Hsub. unfold hostAllowedAsync.
  destruct (negb (Js.truthy host)); [done|].
  destruct host as [| | | |h|]; try done.
  change (ipaddr_isValid (with_allowlist W l) (Js.strip_port h))
    with (ipaddr_isValid W (Js.strip_port h)).
  change (ipaddr_isValid (with_allowlist W l') (Js.strip_port h))
    with (ipaddr_isValid W (Js.strip_port h)).
  change (dns_lookup (with_allowlist W l) (Js.strip_port h))
    with (dns_lookup W (Js.strip_port h)).
  change (dns_lookup (with_allowlist W l') (Js.strip_port h))
    with (dns_lookup W (Js.strip_port h)).
  change (ALLOWLIST (with_allowlist W l)) with l.
  change (ALLOWLIST (with_allowlist W l')) with l'.
  destruct (ipaddr_isValid W (Js.strip_port h)).
  - rewrite !literal_loop_with. intros [= <- Hm]. f_equal. f_equal.
    by apply (existsb_same_elements _ l l').
  - destruct (dns_lookup W (Js.strip_port h)) as [addresses|]; [|done].
    rewrite !resolved_loop_with. intros [= <- Hm]. f_equal. f_equal.
    apply existsb_exists in Hm as (addr & Hin & Hm).
    apply existsb_exists. exists addr. split; [done|].
    by apply (existsb_same_elements _ l l').
Qed.

Lemma allowlist_monotone_witness :
  hostAllowedAsync (with_allowlist Lab.default ["8.8.8.8"; "10.0.0.0/8"])
    (VStr "10.1.2.3") = ([], Returned true).
Proof.
  apply (allowlist_monotone Lab.default ["10.0.0.0/8"]).
  - intros rule [<-|[]]. right. by left.
  - vm_compute. reflexivity.
Defined.

(** X6.  The decision depends on the set of rules only: two allowlists
    with the same rules, in any order and with any repetitions, give
    the same answer and the same look-ups for every host. *)
Theorem allowlist_is_a_set (W : World) (l l' : list string) (host : JsVal) :
  (forall rule, In rule l <-> In rule l') ->
  hostAllowedAsync (with_allowlist W l) host
  = hostAllowedAsync (with_allowlist W l') host.
Proof.
  intros Hsame.
  assert (Hex : forall f : string -> bool, existsb f l = existsb f l').
  { intros f. apply eq_true_iff_eq.
    split; apply existsb_same_elements; intros x; apply Hsame. }
  unfold hostAllowedAsync.
  destruct (negb (Js.truthy host)); [done|].
  destruct host as [| | | |h|]; try done.
  change (ipaddr_isValid (with_allowlist W l) (Js.strip_port h))
    with (ipaddr_isValid W (Js.strip_port h)).
  change (ipaddr_isValid (with_allowlist W l') (Js.strip_port h))
    with (ipaddr_isValid W (Js.strip_port h)).
  change (dns_lookup (with_allowlist W l) (Js.strip_port h))
    with (dns_lookup W (Js.strip_port h)).
  change (dns_lookup (with_allowlist W l') (Js.strip_port h))
    with (dns_lookup W (Js.strip_port h)).
  change (ALLOWLIST (with_allowlist W l)) with l.
  change (ALLOWLIST (with_allowlist W l')) with l'.
  destruct (ipaddr_isValid W (Js.strip_port h)).
  - by rewrite !literal_loop_with, Hex.
  - destruct (dns_lookup W (Js.strip_port h)) as [addresses|]; [|done].
    rewrite !resolved_loop_with. do 2 f_equal.
    induction addresses as [|addr rest IH]; [done|].
    cbn [existsb]. by rewrite Hex, IH.
Qed.

Lemma allowlist_is_a_set_witness :
  hostAllowedAsync
    (with_allowlist Lab.default ["localhost"; "10.0.0.0/8"]) (VStr "10.1.2.3")
  = hostAllowedAsync
      (with_allowlist Lab.default ["10.0.0.0/8"; "localhost"; "10.0.0.0/8"])
      (VStr "10.1.2.3").
Proof.
  apply allowlist_is_a_set. intros rule. cbn. tauto.
Defined.

(** X7.  With an empty allowlist no host is authorized. *)
Theorem empty_allowlist_refuses (W : World) (host : JsVal) (tr : list Event) :
  ALLOWLIST W = [] ->
  hostAllowedAsync W host <> (tr, Returned true).
Proof.
  intros Hempty. unfold hostAllowedAsync.
  destruct (negb (Js.truthy host)); [done|].
  destruct host as [| | | |h|]; try done.
  rewrite Hempty.
  destruct (ipaddr_isValid W (Js.strip_port h)); [done|].
  destruct (dns_lookup W (Js.strip_port h)) as [addresses|]; [|done].
  rewrite resolved_loop_existsb, Hempty.
  induction addresses as [|addr rest IH]; [done|]. exact IH.
Qed.

Lemma empty_allowlist_refuses_witness :
  hostAllowedAsync (Lab.runtime []) (VStr "127.0.0.1") <> ([], Returned true).
Proof. apply empty_allowlist_refuses. reflexivity. Defined.

Lemma nonempty_app h t : h <> EmptyString -> Js.nonempty (h ++ t) = true.
Proof. by destruct h. Qed.

(** X8.  A [:port] suffix does not change the decision: for a host [h]
    that does not itself end in a colon and digits, [h:port] is
    authorized exactly when [h] is, with the same look-ups. *)
Theorem port_suffix_is_ignored (W : World) (h d : string) :
  h <> EmptyString -> Js.strip_port h = h ->
  Js.nonempty d = true -> Js.all_digits d = true ->
  hostAllowedAsync W (VStr (h ++ String ":" d)) = hostAllowedAsync W (VStr h).
Proof.
  intros Hh Hclean Hne Hd. unfold hostAllowedAsync.
  cbn [Js.truthy]. rewrite nonempty_app by done.
  destruct h as [|c r] eqn:Heq; [done|]. rewrite <- Heq in *.
  replace (Js.nonempty h) with true by (by rewrite Heq).
  cbn [negb]. by rewrite strip_port_suffix, Hclean.
Qed.

Lemma port_suffix_is_ignored_witness :
  hostAllowedAsync Lab.default (VStr ("localhost" ++ String ":" "8080"))
  = hostAllowedAsync Lab.default (VStr "localhost").
Proof. by apply port_suffix_is_ignored. Defined.

(** X9.  A host name that is itself an exact-hostname rule is authorized
    exactly when its look-up returns at least one address, whatever the
    addresses are. *)
Theorem allowlisted_name_must_resolve (W : World) (h : string) :
  h <> EmptyString ->
  ipaddr_isValid W (Js.strip_port h) = false ->
  In (Js.strip_port h) (ALLOWLIST W) ->
  Js.includes "/" (Js.strip_port h) = false ->
  hostAllowedAsync W (VStr h)
  = ([EvDns (Js.strip_port h)],
     Returned match dns_lookup W (Js.strip_port h) with
              | Some (_ :: _) => true
              | _ => false
              end).
Proof.
  intros Hh Hinvalid Hin Hslash. unfold hostAllowedAsync.
  destruct h as [|c r] eqn:Heq; [done|]. rewrite <- Heq in *.
  replace (Js.truthy (VStr h)) with true by (by rewrite Heq).
  cbn [negb]. rewrite Hinvalid.
  destruct (dns_lookup W (Js.strip_port h)) as [[|addr rest]|]; [done| |done].
  do 2 f_equal. cbn [resolved_loop].
  rewrite resolved_rule_loop_existsb.
  replace (existsb _ (ALLOWLIST W)) with true; [done|].
  symmetry. apply existsb_exists. exists (Js.strip_port h). split; [done|].
  unfold rule_matches, rule_kind. rewrite Hslash, Hinvalid.
  apply String.eqb_refl.
Qed.

Lemma allowlisted_name_must_resolve_witness :
  hostAllowedAsync (Lab.runtime ["printer.lan"; "localhost"])
    (VStr "printer.lan")
  = ([EvDns "printer.lan"], Returned false).
Proof.
  apply (allowlisted_name_must_resolve
           (Lab.runtime ["printer.lan"; "localhost"]) "printer.lan").
  - discriminate.
  - reflexivity.
  - left. reflexivity.
  - reflexivity.
Defined.

Lemma includes_after c x y : Js.includes c (x ++ String c y) = true.
Proof.
  induction x as [|d r IH].
  - change (Js.includes c (String c y) = true). cbn [Js.includes].
    by rewrite Ascii.eqb_refl.
  - change (String d r ++ String c y)%string
      with (String d (r ++ String c y)%string).
    cbn [Js.includes]. rewrite IH. apply orb_true_r.
Qed.

(** X10.  [cidrContains] reads the network and the prefix length from the
    first two parts of the rule: whatever follows a second slash is
    ignored. *)
Theorem cidr_extra_parts_ignored (W : World) (net len rest ip : string) :
  Js.includes "/" net = false -> Js.includes "/" len = false ->
  cidrContains W (net ++ String "/" (len ++ String "/" rest)) ip
  = cidrContains W (net ++ String "/" len) ip.
Proof.
  intros Hnet Hlen. unfold cidrContains, cidrContains_try.
  rewrite !includes_after. cbn [negb].
  rewrite !split_first by done. rewrite (split_without "/" len) by done.
  reflexivity.
Qed.

Lemma cidr_extra_parts_ignored_witness :
  cidrContains Lab.default ("10.0.0.0" ++ String "/" ("8" ++ String "/" "24"))
    "10.9.9.9"
  = cidrContains Lab.default ("10.0.0.0" ++ String "/" "8") "10.9.9.9".
Proof. by apply cidr_extra_parts_ignored. Defined.

(** ** The API key gate (lines 19, 27-33) *)

Lemma api_key_never_empty env : Js.nonempty (api_key_of_env env) = true.
Proof.
  unfold api_key_of_env, param_or. destruct env as [s|]; [|done].
  by destruct (Js.nonempty s) eqn:Hs.
Qed.

Lemma gate_iff (env : option string) (c : Credentials) :
  requireApiKey (api_key_of_env env) c = true <->
  presented_key c = Some (api_key_of_env env).
Proof.
  unfold requireApiKey. pose proof (api_key_never_empty env) as Hne.
  destruct (presented_key c) as [k|]; [|done]. split.
  - intros [_ Heq%String.eqb_eq]%andb_true_iff. by rewrite Heq.
  - intros [= ->]. by rewrite Hne, String.eqb_refl.
Qed.

(** X11.  Whatever [SCAN_API_KEY] holds, a request passes the gate exactly
    when the key it presents, the header if it has one and else the
    query parameter, equals the configured key; a request without a key
    or with an empty one never passes. *)
Theorem gate_opens_for_the_key_only (env : option string) (c : Credentials) :
  (requireApiKey (api_key_of_env env) c = true <->
   presented_key c = Some (api_key_of_env env)) /\
  (presented_key c = None \/ presented_key c = Some EmptyString ->
   requireApiKey (api_key_of_env env) c = false).
Proof.
  split; [apply gate_iff|].
  unfold requireApiKey. by intros [-> | ->].
Qed.

Lemma gate_opens_for_the_key_only_witness :
  requireApiKey (api_key_of_env (Some "s3cret"))
    {| header_api_key := Some ""; query_api_key := None |} = false.
Proof.
  apply (gate_opens_for_the_key_only (Some "s3cret")
           {| header_api_key := Some ""; query_api_key := None |}).
  by left.
Defined.

(** X12.  A non-empty header key that is wrong closes the gate even when
    the query parameter carries the right key. *)
Theorem wrong_header_shadows_query (API_KEY h : string) (c : Credentials) :
  header_api_key c = Some h -> h <> EmptyString -> h <> API_KEY ->
  requireApiKey API_KEY c = false.
Proof.
  intros Hh Hne Hwrong. unfold requireApiKey, presented_key. rewrite Hh.
  destruct h as [|a r]; [done|]. cbn [Js.nonempty andb].
  by apply String.eqb_neq.
Qed.

Lemma wrong_header_shadows_query_witness :
  requireApiKey "s3cret"
    {| header_api_key := Some "guess"; query_api_key := Some "s3cret" |}
  = false.
Proof. by apply (wrong_header_shadows_query "s3cret" "guess"). Defined.

(** X13.  Behind the gate nothing happens without the key: a request
    whose presented key is not the configured one gets 401 on both
    routes, with no look-up and no probe; with the key the routes are
    their handlers. *)
Theorem routes_need_the_key (W : World) (env : option string)
    (c : Credentials) (q : CheckQuery) (b : ScanBody) :
  (presented_key c <> Some (api_key_of_env env) ->
   get_tcp_check W (api_key_of_env env) c q
   = ([], Sent 401 (BError "Missing/invalid API key")) /\
   post_tcp_scan_range W (api_key_of_env env) c b
   = ([], Sent 401 (BError "Missing/invalid API key"))) /\
  (presented_key c = Some (api_key_of_env env) ->
   get_tcp_check W (api_key_of_env env) c q = tcp_check W q /\
   post_tcp_scan_range W (api_key_of_env env) c b = tcp_scan_range W b).
Proof.
  unfold get_tcp_check, post_tcp_scan_range.
  pose proof (gate_iff env c) as Hgate. split.
  - intros Hwrong.
    destruct (requireApiKey (api_key_of_env env) c); [|done].
    destruct Hwrong. by apply Hgate.
  - intros Hright. apply Hgate in Hright. by rewrite Hright.
Qed.

(** ** [GET /tcp/check] (lines 126-138) *)

Lemma trim_all_space s : Js.all_space s = true -> Js.trim s = EmptyString.
Proof. intros Hs. unfold Js.trim. by rewrite trim_start_all_space. Qed.

(** X14.  A [host] parameter made of white space only counts as missing:
    the response is 400 and nothing is looked up or probed. *)
Theorem check_blank_host_is_missing (W : World) (q : CheckQuery) (h : string) :
  q_host q = Some h -> Js.all_space h = true ->
  tcp_check W q = ([], Sent 400 (BError "missing host or port")).
Proof.
  intros Hq Hblank. unfold tcp_check, check_host, param_or. rewrite Hq.
  destruct (Js.nonempty h); [by rewrite (trim_all_space h)|done].
Qed.

Lemma check_blank_host_is_missing_witness :
  tcp_check Lab.default
    {| q_host := Some "   "; q_port := Some "80"; q_timeout := None |}
  = ([], Sent 400 (BError "missing host or port")).
Proof. by apply (check_blank_host_is_missing Lab.default _ "   "). Defined.

(** X15.  White space around the [host] parameter does not matter: the
    request is answered as the one with the trimmed host. *)
Theorem check_host_is_trimmed (W : World) (h : string)
    (port timeout : option string) :
  tcp_check W {| q_host := Some h; q_port := port; q_timeout := timeout |}
  = tcp_check W {| q_host := Some (Js.trim h); q_port := port;
                   q_timeout := timeout |}.
Proof.
  assert (Hhost : forall p t,
    check_host {| q_host := Some h; q_port := p; q_timeout := t |}
    = check_host {| q_host := Some (Js.trim h); q_port := p;
                    q_timeout := t |}).
  { intros p t. unfold check_host, param_or. cbn [q_host].
    destruct (Js.nonempty h) eqn:Hh.
    - destruct (Js.nonempty (Js.trim h)) eqn:Ht.
      + by rewrite trim_idempotent.
      + destruct (Js.trim h); [done | discriminate].
    - destruct h; [done | discriminate]. }
  unfold tcp_check. rewrite <- Hhost. reflexivity.
Qed.



(** ** [POST /tcp/scan-range] (lines 140-167) *)

(** X17.  A [host] that is truthy but not a string (a number, [true], an
    array, an object) passes the check of line 145 and makes line 50
    throw: with integer [start] and [end] the handler's promise
    rejects, before any look-up or probe. *)
Theorem scan_host_must_be_a_string (W : World) (b : ScanBody) :
  Js.truthy (b_host b) = true ->
  (forall s, b_host b <> VStr s) ->
  Js.isInteger (b_start b) = true -> Js.isInteger (b_end b) = true ->
  tcp_scan_range W b = ([], Unhandled).
Proof.
  intros Hhost Hnot Hs He. unfold tcp_scan_range, hostAllowedAsync.
  rewrite Hhost, Hs, He. cbn [negb orb].
  destruct (b_host b) as [| | | |s|]; try done. by destruct (Hnot s).
Qed.

Lemma scan_host_must_be_a_string_witness :
  tcp_scan_range Lab.default
    {| b_host := VNum (Js.of_Z 5); b_start := VNum (Js.of_Z 1);
       b_end := VNum (Js.of_Z 2); b_timeout := VUndef;
       b_concurrency := VUndef |}
  = ([], Unhandled).
Proof. by apply scan_host_must_be_a_string. Defined.

Lemma ports_loop_bounds n p q :
  In q (ports_loop n p) -> p <= q < p + Z.of_nat n.
Proof.
  revert p. induction n as [|n IH]; intros p; cbn; [done|].
  intros [<-|Hin]; [lia|]. apply IH in Hin. lia.
Qed.

(** X18.  Whatever the body, a range scan makes at most one look-up and
    at most 200 probes, all on the host of the body and each on an
    integer port from 1 to 65535. *)
Theorem scan_probes_are_bounded (W : World) (b : ScanBody) :
  exists lookups ports,
    fst (tcp_scan_range W b)
    = lookups ++ map (fun p => EvProbe (b_host b) (Js.of_Z p)
                                 (scan_timeout W b)) ports /\
    List.filter is_probe lookups = [] /\
    (length lookups <= 1)%nat /\
    (length ports <= 200)%nat /\
    forall p, In p ports -> 1 <= p <= 65535.
Proof.
  assert (Hauth : List.filter is_probe (fst (hostAllowedAsync W (b_host b)))
                  = [] /\
                  (length (fst (hostAllowedAsync W (b_host b))) <= 1)%nat).
  { split; [apply hostAllowedAsync_no_probe|]. unfold hostAllowedAsync.
    destruct (negb (Js.truthy (b_host b))); [cbn; lia|].
    destruct (b_host b) as [| | | |s|]; try (cbn; lia).
    destruct (ipaddr_isValid W (Js.strip_port s)); [cbn; lia|].
    destruct (dns_lookup W (Js.strip_port s)); cbn; lia. }
  destruct Hauth as [Hnp Hone].
  assert (Hnone : forall tr out,
    List.filter is_probe tr = [] -> (length tr <= 1)%nat ->
    exists lookups ports,
      fst (tr, out : Outcome)
      = lookups ++ map (fun p => EvProbe (b_host b) (Js.of_Z p)
                                   (scan_timeout W b)) ports /\
      List.filter is_probe lookups = [] /\
      (length lookups <= 1)%nat /\
      (length ports <= 200)%nat /\
      forall p, In p ports -> 1 <= p <= 65535).
  { intros tr out Htr Hlen. exists tr, []. cbn. rewrite app_nil_r.
    repeat split; try done; lia. }
  unfold tcp_scan_range.
  destruct (negb (Js.truthy (b_host b)) || _ || _);
    [apply Hnone; [done | cbn; lia]|].
  destruct (hostAllowedAsync W (b_host b)) as [tr [allowed|]];
    [|by apply Hnone].
  cbn [fst] in Hnp, Hone.
  destruct allowed; cbn [negb]; [|by apply Hnone].
  destruct (MAX_PORT_RANGE <? scan_max b - scan_min b + 1) eqn:Hcount;
    [by apply Hnone|].
  apply Z.ltb_ge in Hcount. unfold MAX_PORT_RANGE in Hcount.
  pose proof (scan_min_max_range b) as (Hlo & Hmid & Hhi).
  exists tr, (scan_ports b). split; [by destruct (Sched.mapWithConcurrency_value _ _)|].
  repeat split; try done.
  - unfold scan_ports, ports_between. rewrite ports_loop_length. lia.
  - unfold scan_ports, ports_between in H. apply ports_loop_bounds in H. lia.
  - unfold scan_ports, ports_between in H. apply ports_loop_bounds in H. lia.
Qed.

(** X19.  [start] and [end] may come in either order: exchanging them
    gives the same operations and the same response. *)
Theorem scan_order_does_not_matter (W : World)
    (host s e timeout concurrency : JsVal) :
  tcp_scan_range W {| b_host := host; b_start := s; b_end := e;
                      b_timeout := timeout; b_concurrency := concurrency |}
  = tcp_scan_range W {| b_host := host; b_start := e; b_end := s;
                        b_timeout := timeout; b_concurrency := concurrency |}.
Proof.
  unfold tcp_scan_range, scan_ports, scan_min, scan_max, scan_timeout.
  cbn [b_host b_start b_end b_timeout b_concurrency].
  rewrite (Z.min_comm (clamp_port (Js.int_of s))).
  rewrite (Z.max_comm (clamp_port (Js.int_of s))).
  by destruct (Js.truthy host), (Js.isInteger s), (Js.isInteger e).
Qed.

Lemma not_Qle_bool x y : Qle_bool x y = false -> (y <= x)%Q.
Proof.
  intros H. destruct (Qlt_le_dec x y) as [Hlt|Hle]; [|done].
  apply Qlt_le_weak, Qle_bool_iff in Hlt. congruence.
Qed.

(** Line 160 leaves a finite limit between 1 and 50. *)
Lemma scan_limit_range (W : World) (b : ScanBody) :
  exists x, scan_limit W b = Fin x /\ (1 <= x)%Q /\ (x <= 50)%Q.
Proof.
  unfold scan_limit, scan_concurrency.
  destruct (Js.truthy_num (ToNumber W (b_concurrency b))) eqn:Ht.
  - destruct (ToNumber W (b_concurrency b)) as [| | |x]; try done.
    + exists 1%Q. by vm_compute.
    + exists 50%Q. by vm_compute.
    + unfold Js.min, Js.of_Z, Js.lt.
      destruct (Qle_bool (inject_Z MAX_CONCURRENCY) x) eqn:H50; cbn [negb].
      * exists 50%Q. by vm_compute.
      * apply not_Qle_bool in H50.
        unfold Js.max, Js.lt.
        destruct (Qle_bool x (inject_Z 1)) eqn:H1; cbn [negb].
        -- exists 1%Q. by vm_compute.
        -- apply not_Qle_bool in H1. by exists x.
  - exists 20%Q. by vm_compute.
Qed.

Lemma fills_up_to (x : Q) (cap : nat) :
  (x <= inject_Z (Z.of_nat cap))%Q -> Sched.fills (Fin x) cap.
Proof.
  intros Hx n Hn. unfold Js.ge, Js.of_Z. apply Qle_bool_iff.
  apply (Qle_trans _ _ _ Hx). rewrite <- Zle_Qle. lia.
Qed.

(** X20.  During a range scan at most 50 probes are in flight at any
    time, whatever [concurrency] the body asks for. *)
Theorem scan_in_flight_at_most_50 (W : World) (b : ScanBody)
    (st : Sched.State Z ProbeResult) :
  Sched.reachable (probe_worker W (b_host b) (scan_timeout W b))
    (scan_limit W b) (scan_ports b) st ->
  (Sched.in_flight st <= 50)%nat.
Proof.
  destruct (scan_limit_range W b) as (x & -> & _ & H50).
  apply in_flight_bound; [|lia]. by apply fills_up_to.
Qed.

Lemma scan_in_flight_at_most_50_witness :
  (Sched.in_flight
     (scan_call Lab.default
        {| b_host := VStr "127.0.0.1"; b_start := VNum (Js.of_Z 1);
           b_end := VNum (Js.of_Z 200); b_timeout := VUndef;
           b_concurrency := VNum (Js.of_Z 1000) |}) <= 50)%nat.
Proof.
  apply (scan_in_flight_at_most_50 Lab.default
           {| b_host := VStr "127.0.0.1"; b_start := VNum (Js.of_Z 1);
              b_end := VNum (Js.of_Z 200); b_timeout := VUndef;
              b_concurrency := VNum (Js.of_Z 1000) |}).
  apply Sched.reach_call.
Defined.

(** ** The scheduler (lines 109-124) *)

(** X21.  For any finite limit, also a fractional one or one below 1, the
    number of workers in flight never exceeds the limit rounded up, or
    1 if that is less. *)
Theorem in_flight_within_ceiling {T A : Type}
    (fn : T -> Sched.Behaviour A) (items : list T) (limit : Q)
    (st : Sched.State T A) :
  Sched.reachable fn (Fin limit) items st ->
  (Sched.in_flight st <= ceiling_cap limit)%nat.
Proof.
  intros Hreach. apply (in_flight_bound fn (Fin limit) items); [|unfold ceiling_cap; lia|done].
  apply fills_up_to. unfold ceiling_cap.
  apply (Qle_trans _ _ _ (Qle_ceiling limit)). rewrite <- Zle_Qle. lia.
Qed.

Lemma in_flight_within_ceiling_witness :
  (Sched.in_flight
     (Sched.mapWithConcurrency Lab.flaky (Fin (3 # 2)) [1; 3; 5; 7]%Z)
   <= ceiling_cap (3 # 2))%nat.
Proof.
  apply (in_flight_within_ceiling Lab.flaky [1; 3; 5; 7] (3 # 2)).
  apply Sched.reach_call.
Defined.

Lemma steps_measure {T A : Type} (fn : T -> Sched.Behaviour A)
    (concurrency : JsNum) (items : list T) n (st st' : Sched.State T A) :
  Sched.reachable fn concurrency items st ->
  steps fn concurrency n st st' ->
  (n + Sched.measure items (Sched.todo st') st'
   <= Sched.measure items (Sched.todo st) st)%nat.
Proof.
  intros Hreach Hsteps. induction Hsteps as [st|n st st1 st2 Hstep _ IH].
  - lia.
  - destruct (reachable_inv fn concurrency items st Hreach) as (Hs & Hp & _).
    pose proof (measure_step fn concurrency items st st1 Hs Hp Hstep).
    assert (Sched.reachable fn concurrency items st1)
      by (by eapply Sched.reach_step).
    specialize (IH H0). lia.
Qed.

(** X22.  No schedule of the scheduler is infinite.  Counting the
    settlements of the workers and the jobs that read or write
    [results] and [executing] (the continuation of line 114, the
    [finally] callback of line 118, the reactions of [Promise.race] and
    the resumption of line 120; the other microtasks of the call are
    not counted), a call on [n] items takes at most [n * (n + 6)] of
    them, whatever the limit, the workers and the order in which they
    settle. *)
Theorem every_schedule_is_finite {T A : Type} (fn : T -> Sched.Behaviour A)
    (concurrency : JsNum) (items : list T) (n : nat) (st : Sched.State T A) :
  steps fn concurrency n (Sched.mapWithConcurrency fn concurrency items) st ->
  (n <= length items * (length items + 6))%nat.
Proof.
  intros Hsteps.
  pose proof (steps_measure fn concurrency items n _ st
                (Sched.reach_call fn concurrency items) Hsteps) as Hm.
  pose proof (measure_loop fn concurrency items items Sched.empty
                (sound_empty fn items) running_empty) as Hinit.
  unfold Sched.mapWithConcurrency in Hm.
  assert (Sched.measure items items (@Sched.empty T A)
          = ((length items + 6) * length items)%nat) by (by vm_compute).
  lia.
Qed.

Lemma every_schedule_is_finite_witness :
  (2 <= length [1; 3]%Z * (length [1; 3]%Z + 6))%nat.
Proof.
  apply (every_schedule_is_finite Lab.flaky (Fin 1) [1; 3] 2
           (Sched.run Lab.flaky (Fin 1) 2
              (Sched.mapWithConcurrency Lab.flaky (Fin 1) [1; 3]))).
  eapply steps_more; [apply advance_step; reflexivity|].
  eapply steps_more; [apply advance_step; reflexivity|].
  apply steps_none.
Defined.

(** The loop runs through a prefix of its items without waiting when
    the test of line 119 fails after each of them. *)
Lemma loop_prefix {T A : Type} (fn : T -> Sched.Behaviour A)
    (concurrency : JsNum) (pre rest : list T) (st : Sched.State T A) :
  (forall i, is_Some (Sched.inflight st !! i) \/ is_Some (Sched.value st !! i) ->
             (i < Sched.next st)%nat) ->
  (forall n, (length (Sched.executing st) < n
              <= length (Sched.executing st) + length pre)%nat ->
             Js.ge (Js.of_Z (Z.of_nat n)) concurrency = false) ->
  exists st',
    Sched.loop fn concurrency (pre ++ rest) st
    = Sched.loop fn concurrency rest st' /\
    (forall i, is_Some (Sched.inflight st' !! i)
               \/ is_Some (Sched.value st' !! i) ->
               (i < Sched.next st')%nat) /\
    size (Sched.inflight st')
    = (size (Sched.inflight st)
       + length (List.filter (fun x => is_deferred (fn x)) pre))%nat /\
    length (Sched.executing st')
    = (length (Sched.executing st) + length pre)%nat /\
    Sched.next st' = (Sched.next st + length pre)%nat /\
    Sched.returned st' = Sched.returned st.
Proof.
  revert st. induction pre as [|x pre IH]; intros st Hfresh Hfree.
  - exists st. cbn. repeat split; try done; lia.
  - assert (Hv : Sched.value st !! Sched.next st = None).
    { destruct (Sched.value st !! Sched.next st) eqn:Hv; [|done].
      assert (Sched.next st < Sched.next st)%nat; [|lia].
      apply Hfresh. right. by rewrite Hv. }
    assert (Hf : Sched.inflight st !! Sched.next st = None).
    { destruct (Sched.inflight st !! Sched.next st) eqn:Hf; [|done].
      assert (Sched.next st < Sched.next st)%nat; [|lia].
      apply Hfresh. left. by rewrite Hf. }
    change ((x :: pre) ++ rest) with (x :: (pre ++ rest)).
    cbn [Sched.loop].
    pose proof (spawn_eq fn x st Hv) as Hspawn.
    set (st1 := Sched.register (Sched.create fn x st)) in *.
    assert (Hex : Sched.executing st1
                  = Sched.executing st ++ [Sched.next st])
      by (by rewrite Hspawn).
    assert (Hnext : Sched.next st1 = S (Sched.next st))
      by (by rewrite Hspawn).
    assert (Hfull : Sched.full concurrency st1 = false).
    { unfold Sched.full. apply Hfree. rewrite Hex, length_app. cbn. lia. }
    rewrite Hfull.
    destruct (IH st1) as (st' & Hloop & Hfresh' & Hsize & Hlen & Hn & Hret).
    + intros i Hi. rewrite Hnext.
      destruct (decide (i = Sched.next st)) as [->|Hne]; [lia|].
      assert (i < Sched.next st)%nat; [|lia]. apply Hfresh.
      rewrite Hspawn in Hi. cbn in Hi.
      destruct (fn x); destruct Hi as [Hi|Hi];
        rewrite ?lookup_insert_ne in Hi by done; auto.
    + intros n Hn. apply Hfree. rewrite Hex, length_app in Hn. cbn in *. lia.
    + exists st'. split; [done|]. split; [done|].
      rewrite Hsize, Hlen, Hn, Hret, Hex, Hnext, length_app.
      cbn [length List.filter].
      repeat split; try lia; [|by rewrite Hspawn].
      rewrite Hspawn. cbn [Sched.inflight].
      destruct (fn x); cbn [is_deferred length]; try lia.
      rewrite map_size_insert_None by done. lia.
Qed.

Lemma empty_fresh {T A : Type} i :
  is_Some (Sched.inflight (@Sched.empty T A) !! i)
  \/ is_Some (Sched.value (@Sched.empty T A) !! i) ->
  (i < Sched.next (@Sched.empty T A))%nat.
Proof. cbn. rewrite !lookup_empty. intros [[? ?]|[? ?]]; done. Qed.

(** X23.  A limit that is [NaN] or [Infinity] does not limit: the call
    starts the workers of all items before it returns, and all those
    that return a pending promise are in flight at once. *)
Theorem no_limit_without_a_number {T A : Type} (fn : T -> Sched.Behaviour A)
    (concurrency : JsNum) (items : list T) :
  concurrency = NaN \/ concurrency = PosInf ->
  Sched.returned (Sched.mapWithConcurrency fn concurrency items) = true /\
  Sched.next (Sched.mapWithConcurrency fn concurrency items) = length items /\
  Sched.in_flight (Sched.mapWithConcurrency fn concurrency items)
  = length (List.filter (fun x => is_deferred (fn x)) items).
Proof.
  intros Hc. unfold Sched.mapWithConcurrency.
  destruct (loop_prefix fn concurrency items [] Sched.empty)
    as (st' & Hloop & _ & Hsize & _ & Hnext & _).
  - apply empty_fresh.
  - intros n _. by destruct Hc as [-> | ->].
  - rewrite app_nil_r in Hloop. rewrite Hloop. cbn [Sched.loop].
    unfold Sched.in_flight. cbn. rewrite Hsize, Hnext. cbn.
    rewrite map_size_empty. done.
Qed.

Lemma no_limit_without_a_number_witness :
  Sched.in_flight (Sched.mapWithConcurrency Lab.flaky NaN [1; 2; 3; 4; 5; 6])
  = length (List.filter (fun x => is_deferred (Lab.flaky x)) [1; 2; 3; 4; 5; 6]).
Proof. apply no_limit_without_a_number. by left. Defined.

(** X24.  The limit is reached: when the limit is an integer [c], at
    least 1, and the first [c] items all return a pending promise, the
    call starts exactly these [c] workers before it first waits. *)
Theorem limit_is_reached {T A : Type} (fn : T -> Sched.Behaviour A)
    (c : Z) (first rest : list T) :
  1 <= c -> Z.of_nat (length first) = c ->
  (forall x, In x first -> is_deferred (fn x) = true) ->
  Sched.in_flight (Sched.mapWithConcurrency fn (Js.of_Z c) (first ++ rest))
  = length first /\
  Sched.next (Sched.mapWithConcurrency fn (Js.of_Z c) (first ++ rest))
  = length first /\
  Sched.returned (Sched.mapWithConcurrency fn (Js.of_Z c) (first ++ rest))
  = false.
Proof.
  intros Hc Hlen Hdef.
  destruct (@exists_last _ first) as (pre & x & ->).
  { intros ->. cbn in Hlen. lia. }
  rewrite length_app in *. cbn [length] in *.
  unfold Sched.mapWithConcurrency. rewrite <- !app_assoc.
  destruct (loop_prefix fn (Js.of_Z c) pre ([x] ++ rest) Sched.empty)
    as (st' & Hloop & Hfresh & Hsize & Hex & Hnext & Hret).
  - apply empty_fresh.
  - intros n Hn. cbn in Hn. unfold Js.ge, Js.of_Z.
    destruct (Qle_bool (inject_Z c) (inject_Z (Z.of_nat n))) eqn:Hq; [|done].
    apply Qle_bool_iff in Hq. rewrite <- Zle_Qle in Hq. lia.
  - rewrite Hloop. cbn [app Sched.loop].
    assert (Hv : Sched.value st' !! Sched.next st' = None).
    { destruct (Sched.value st' !! Sched.next st') eqn:Hv; [|done].
      assert (Sched.next st' < Sched.next st')%nat; [|lia].
      apply Hfresh. right. by rewrite Hv. }
    assert (Hf : Sched.inflight st' !! Sched.next st' = None).
    { destruct (Sched.inflight st' !! Sched.next st') eqn:Hf; [|done].
      assert (Sched.next st' < Sched.next st')%nat; [|lia].
      apply Hfresh. left. by rewrite Hf. }
    rewrite (spawn_eq fn x st' Hv).
    assert (Hx : is_deferred (fn x) = true).
    { apply Hdef. apply in_or_app. right. by left. }
    destruct (fn x) as [|?|fate]; try done.
    assert (Hall : forall y, In y pre -> is_deferred (fn y) = true).
    { intros y Hy. apply Hdef. apply in_or_app. by left. }
    assert (Hcount : length (List.filter (fun y => is_deferred (fn y)) pre)
                     = length pre).
    { clear -Hall. induction pre as [|y pre IH]; [done|].
      cbn. rewrite (Hall y) by (by left). cbn. f_equal.
      apply IH. intros z Hz. apply Hall. by right. }
    assert (Hfull : Sched.full (Js.of_Z c)
      {| Sched.todo := Sched.todo st'; Sched.next := S (Sched.next st');
         Sched.executing := Sched.executing st' ++ [Sched.next st'];
         Sched.value := Sched.value st';
         Sched.inflight := <[Sched.next st' := fate]> (Sched.inflight st');
         Sched.racing := Sched.racing st';
         Sched.queue := Sched.queue st' ++ [];
         Sched.races := Sched.races st'; Sched.awaiting := Sched.awaiting st';
         Sched.returned := Sched.returned st' |} = true).
    { unfold Sched.full, Js.ge, Js.of_Z. cbn [Sched.executing].
      apply Qle_bool_iff. rewrite <- Zle_Qle, length_app, Hex. cbn. lia. }
    rewrite Hfull. unfold Sched.race. rewrite subscribe_all.
    unfold Sched.in_flight. cbn.
    rewrite map_size_insert_None by done.
    rewrite Hsize, Hnext, Hcount. cbn. rewrite map_size_empty.
    repeat split; try lia. by rewrite Hret.
Qed.

Lemma limit_is_reached_witness :
  Sched.in_flight
    (Sched.mapWithConcurrency Lab.flaky (Js.of_Z 2) ([1; 3] ++ [5; 7]))
  = length [1; 3].
Proof.
  apply (limit_is_reached Lab.flaky 2 [1; 3] [5; 7]); [lia | done |].
  intros x [<-|[<-|[]]]; reflexivity.
Defined.

(** ** Witnesses *)

Lemma strip_port_removes_the_port_only_witness :
  Js.strip_port "fe80::1:443" = "fe80::1".
Proof.
  apply (strip_port_removes_the_port_only "fe80::1:443") with (d := "443");
    reflexivity.
Defined.

Lemma routes_need_the_key_witness :
  get_tcp_check Lab.default (api_key_of_env (Some "s3cret"))
    {| header_api_key := None; query_api_key := Some "guess" |}
    {| q_host := Some "127.0.0.1"; q_port := Some "80"; q_timeout := None |}
  = ([], Sent 401 (BError "Missing/invalid API key")).
Proof.
  apply (routes_need_the_key Lab.default (Some "s3cret")
           {| header_api_key := None; query_api_key := Some "guess" |}
           {| q_host := Some "127.0.0.1"; q_port := Some "80";
              q_timeout := None |}
           {| b_host := VUndef; b_start := VUndef; b_end := VUndef;
              b_timeout := VUndef; b_concurrency := VUndef |}).
  discriminate.
Defined.

Lemma check_probed_port_in_range_witness :
  exists x, Js.of_Z 80 = Fin x /\ (1 <= x)%Q /\ (x <= 65535)%Q.
Proof.
  apply (check_probed_port_in_range Lab.default
           {| q_host := Some "127.0.0.1"; q_port := Some "80";
              q_timeout := None |}
           (VStr "127.0.0.1") (Js.of_Z 80) (Js.of_Z 2000)).
  vm_compute. by left.
Defined.
